(** * A shallow embedding of the diagnosis server (server.js)

    JavaScript numbers are IEEE binary64 values, modelled by Rocq's primitive
    floats ([PrimFloat.float]), whose operations are specified through
    [Prim2SF] by the [SpecFloat] operations of the binary64 format.  A
    [Float32Array] slot holds a binary32 value, modelled as a [spec_float]
    rounded to 24 bits of precision. *)

From Stdlib Require Import ZArith Lia Bool List String Ascii.
From Stdlib Require Import Floats.
From Stdlib Require Uint63.
From Stdlib Require Import Reals Lra.
Import ListNotations.

Open Scope Z_scope.

(** ** JavaScript numbers *)

Module JS.

(** [Math.round]: the integer closest to [x], ties toward +infinity; NaN,
    infinities, zeros and values that are already integers are returned as
    they are, and a negative [x] rounding to zero gives -0. *)
Definition round (x : float) : float :=
  match Prim2SF x with
  | S754_finite s m e =>
      if 0 <=? e then x
      else
        let k := (cond_Zopp s (Zpos m) + 2 ^ (- e - 1)) / 2 ^ (- e) in
        if k =? 0 then (if s then (- 0)%float else 0%float)
        else if 0 <? k then of_uint63 (Uint63.of_Z k)
        else (- of_uint63 (Uint63.of_Z (- k)))%float
  | _ => x
  end.

(** [Math.max] on two numbers: NaN when one of them is NaN, +0 above -0. *)
Definition max (a b : float) : float :=
  if PrimFloat.is_nan a || PrimFloat.is_nan b then nan
  else if (a <? b)%float then b
  else if (b <? a)%float then a
  else if PrimFloat.get_sign a then b else a.

(** Storing a number into a [Float32Array]: rounding to binary32
    (24 bits of precision, emax 128), to nearest, ties to even. *)
Definition fround (d : float) : spec_float :=
  match Prim2SF d with
  | S754_finite s m e => binary_round 24 128 s m e
  | f => f
  end.

End JS.

(** ** The result interpreter (makePrediction, lines 109-117) *)

Module Interp.

Inductive diagnosis := Benigno | Maligno.

Record result := { diagnosis_of : diagnosis; confidence_of : float; rawPrediction : float }.

(** [isMalignant = confidence > 0.5]; [finalConfidence] is the score or its
    complement; the confidence is rounded to two decimals. *)
Definition isMalignant (confidence : float) : bool := (0.5 <? confidence)%float.

Definition finalConfidence (confidence : float) : float :=
  if isMalignant confidence then confidence else (1 - confidence)%float.

Definition interpret (confidence : float) : result :=
  let isM := isMalignant confidence in
  {| diagnosis_of := if isM then Maligno else Benigno;
     confidence_of := (JS.round (finalConfidence confidence * 100 * 100) / 100)%float;
     rawPrediction := confidence |}.

End Interp.

(** ** Results of fallible code: a value, or a thrown [Error] with its message *)

Inductive res (A : Type) : Type :=
| Ok : A -> res A
| Err : String.string -> res A.
Arguments Ok {A} _.
Arguments Err {A} _.

(** ** The image normalizer (preprocessImage, lines 58-91) *)

Module Pre.

Local Open Scope nat_scope.
Local Open Scope string_scope.

(** A Jimp bitmap: its dimensions and its RGBA bytes. *)
Record bitmap := { width : nat; height : nat; data : list Byte.byte }.

(** A tensor: its shape and its binary32 values, row-major. *)
Record tensor := { shape : list nat; values : list spec_float }.

Definition msg_procesar : string := "Error al procesar la imagen".

(** [data[j]] read as a number: the byte, or [undefined] (NaN) past the end. *)
Definition byte_at (d : list Byte.byte) (j : nat) : float :=
  match nth_error d j with
  | Some b => of_uint63 (Uint63.of_Z (Z.of_N (Byte.to_N b)))
  | None => nan
  end.

(** [a[k] = v] on a [Float32Array]: the value is rounded to binary32, and a
    write past the end is ignored. *)
Fixpoint store (a : list spec_float) (k : nat) (v : float) : list spec_float :=
  match a, k with
  | [], _ => []
  | _ :: a', O => JS.fround v :: a'
  | x :: a', S k' => x :: store a' k' v
  end.

Definition zero32 : spec_float := S754_zero false.

(** The loop of lines 75-80, [fuel] bounding its iterations. *)
Fixpoint rgb_loop (fuel : nat) (d : list Byte.byte) (i rgbIndex : nat)
    (rgbData : list spec_float) : list spec_float :=
  match fuel with
  | O => rgbData
  | S fuel' =>
      if Nat.ltb i (List.length d) then
        let a1 := store rgbData rgbIndex (byte_at d i / 255)%float in
        let a2 := store a1 (rgbIndex + 1) (byte_at d (i + 1) / 255)%float in
        let a3 := store a2 (rgbIndex + 2) (byte_at d (i + 2) / 255)%float in
        rgb_loop fuel' d (i + 4) (rgbIndex + 3) a3
      else rgbData
  end.

(** [new Float32Array(width * height * 3)] filled by the loop. *)
Definition rgbData_of (img : bitmap) : list spec_float :=
  rgb_loop (List.length (data img)) (data img) 0 0
    (repeat zero32 (width img * height img * 3)).

Fixpoint product (l : list nat) : nat :=
  match l with [] => 1 | n :: l' => n * product l' end.

(** [tf.tensor3d(values, shape)]: refuses a shape that is not of rank 3 or
    whose size is not the number of values. *)
Definition tensor3d (vals : list spec_float) (sh : list nat) : res tensor :=
  if Nat.eqb (List.length sh) 3 && Nat.eqb (product sh) (List.length vals)
  then Ok {| shape := sh; values := vals |}
  else Err "Based on the provided shape, the tensor should have a different number of values".

(** [t.expandDims(0)]: a leading axis of size 1. *)
Definition expandDims0 (t : tensor) : tensor :=
  {| shape := 1%nat :: shape t; values := values t |}.

Section Normalizer.

(** [Jimp.read] decodes a buffer or rejects it; [image.resize] resamples. *)
Variable jimp_read : list Byte.byte -> res bitmap.
Variable jimp_resize : nat -> nat -> bitmap -> bitmap.

(** Any error in the try block is replaced by [msg_procesar]. *)
Definition preprocessImage (imageBuffer : list Byte.byte) : res tensor :=
  match jimp_read imageBuffer with
  | Err _ => Err msg_procesar
  | Ok img =>
      let image := jimp_resize 224 224 img in
      match tensor3d (rgbData_of image) [224; 224; 3]%nat with
      | Err _ => Err msg_procesar
      | Ok t => Ok (expandDims0 t)
      end
  end.

End Normalizer.

End Pre.

(** ** Buffers from base64 strings *)

Module B64.

Local Open Scope nat_scope.

(** The value of a base64 digit of the standard or the URL-safe alphabet. *)
Definition sextet (c : ascii) : option nat :=
  let n := nat_of_ascii c in
  if (65 <=? n) && (n <=? 90) then Some (n - 65)
  else if (97 <=? n) && (n <=? 122) then Some (n - 71)
  else if (48 <=? n) && (n <=? 57) then Some (n + 4)
  else if (n =? 43) || (n =? 45) then Some 62
  else if (n =? 47) || (n =? 95) then Some 63
  else None.

(** The digits up to the first ['='], the other characters skipped. *)
Fixpoint sextets (s : string) : list nat :=
  match s with
  | EmptyString => []
  | String c s' =>
      if Ascii.eqb c "="%char then []
      else match sextet c with Some v => v :: sextets s' | None => sextets s' end
  end.

Definition byte_of (n : nat) : Byte.byte :=
  match Byte.of_nat (n mod 256) with Some b => b | None => Byte.x00 end.

(** Four digits give three bytes; a last group of two or three digits gives
    one or two bytes, and a lone last digit none. *)
Fixpoint bytes_of (l : list nat) : list Byte.byte :=
  match l with
  | a :: b :: c :: d :: l' =>
      byte_of (a * 4 + b / 16) :: byte_of ((b mod 16) * 16 + c / 4)
        :: byte_of ((c mod 4) * 64 + d) :: bytes_of l'
  | [a; b; c] => [byte_of (a * 4 + b / 16); byte_of ((b mod 16) * 16 + c / 4)]
  | [a; b] => [byte_of (a * 4 + b / 16)]
  | _ => []
  end.

(** [Buffer.from(s, 'base64')]: a total decoder, lenient as Node's is. The
    model covers strings of 8-bit characters only ([string] is a list of
    [ascii]): a JavaScript string of UTF-16 code units above 255 is outside
    it. *)
Definition buffer_from_base64 (s : string) : list Byte.byte := bytes_of (sextets s).

End B64.

(** ** The regular expression [/^data:image\/[a-z]+;base64,/] *)

Module Prefix.

Local Open Scope string_scope.

Fixpoint drop_lower (s : string) : nat * string :=
  match s with
  | String c s' =>
      if (Nat.leb 97 (nat_of_ascii c) && Nat.leb (nat_of_ascii c) 122)%bool
      then let '(n, r) := drop_lower s' in (S n, r) else (O, s)
  | EmptyString => (O, s)
  end.

(** [image.replace(/^data:image\/[a-z]+;base64,/, '')]: [[a-z]+] is greedy and
    cannot match [;], so the match, when there is one, is unique. *)
Definition strip (s : string) : string :=
  if String.prefix "data:image/" s then
    let rest := substring 11 (String.length s - 11) s in
    match drop_lower rest with
    | (S _, r) =>
        if String.prefix ";base64," r then substring 8 (String.length r - 8) r else s
    | (O, _) => s
    end
  else s.

End Prefix.

(** ** The routes (lines 93-124 and 144-237) *)

Module Server.

Import Pre Interp.
Local Open Scope string_scope.

(** A JSON value of the request body, as JavaScript sees it. *)
Inductive jsval :=
| JStr (s : string)
| JNum (x : float)
| JBool (b : bool)
| JNull
| JUndefined
| JObject
| JArray.

(** [!v]: the falsy values are "", 0, -0, NaN, false, null and undefined. *)
Definition truthy (v : jsval) : bool :=
  match v with
  | JStr s => negb (String.eqb s "")
  | JNum x => negb (PrimFloat.is_nan x || PrimFloat.is_zero x)
  | JBool b => b
  | JNull | JUndefined => false
  | JObject | JArray => true
  end.

(** A response: its status code and its JSON fields ([timestamp] left out). *)
Record response := { status : Z; fields : list (string * jsval) }.

Definition error_response (code : Z) (err msg : string) : response :=
  {| status := code; fields := [("error", JStr err); ("message", JStr msg)] |}.

Definition msg_prediccion : string := "Error al realizar la predicción".
Definition msg_no_cargado : string := "El modelo no está cargado".

Definition resp_unavailable : response :=
  error_response 503 "Modelo no disponible" "El modelo aún se está cargando o falló al cargar".
Definition resp_no_image : response :=
  error_response 400 "Imagen requerida" "Debe proporcionar una imagen en formato base64".
Definition resp_bad_base64 : response :=
  error_response 400 "Formato de imagen inválido" "La imagen debe estar en formato base64 válido".
Definition resp_no_file : response :=
  error_response 400 "Archivo requerido" "Debe proporcionar un archivo de imagen".
Definition resp_internal (msg : string) : response :=
  error_response 500 "Error interno del servidor" msg.

Definition diagnosis_name (d : diagnosis) : string :=
  match d with Benigno => "Benigno" | Maligno => "Maligno" end.

Definition resp_success (r : result) : response :=
  {| status := 200;
     fields := [("success", JBool true); ("diagnosis", JStr (diagnosis_name (diagnosis_of r)));
                ("confidence", JNum (confidence_of r))] |}.

(** The calls the pipeline makes to its collaborators, in order. *)
Inductive event :=
| EvRead (buf : list Byte.byte)
| EvPredict (t : tensor).

Section Routes.

Variable jimp_read : list Byte.byte -> res bitmap.
Variable jimp_resize : nat -> nat -> bitmap -> bitmap.
(** [model.predict(t)] then [prediction.data()[0]]: the score, or a failure. *)
Variable model_predict : tensor -> res float.

(** [makePrediction]: the model check and the prediction; any error in the try
    block, the thrown "not loaded" one included, is replaced by
    [msg_prediccion]. *)
Definition makePrediction (isModelLoaded : bool) (imageTensor : tensor)
    : res result * list event :=
  if negb isModelLoaded then (Err msg_prediccion, [])
  else
    match model_predict imageTensor with
    | Err _ => (Err msg_prediccion, [EvPredict imageTensor])
    | Ok confidence => (Ok (interpret confidence), [EvPredict imageTensor])
    end.

(** Lines 177-180 and 217-220: preprocess, then predict; a throw of either
    leaves the try block. *)
Definition pipeline (isModelLoaded : bool) (imageBuffer : list Byte.byte)
    : res result * list event :=
  match preprocessImage jimp_read jimp_resize imageBuffer with
  | Err m => (Err m, [EvRead imageBuffer])
  | Ok imageTensor =>
      let '(r, ev) := makePrediction isModelLoaded imageTensor in
      (r, EvRead imageBuffer :: ev)
  end.

Definition respond (r : res result * list event) : response * list event :=
  match fst r with
  | Err m => (resp_internal m, snd r)
  | Ok res => (resp_success res, snd r)
  end.

(** Lines 164-174: [image.replace] throws on a value that is not a string
    ([replace] is not a function there); [Buffer.from] never throws. *)
Definition decode_image (image : jsval) : res (list Byte.byte) :=
  match image with
  | JStr s => Ok (B64.buffer_from_base64 (Prefix.strip s))
  | _ => Err "image.replace is not a function"
  end.

(** [POST /predict] with [req.body.image]. *)
Definition post_predict (isModelLoaded : bool) (image : jsval) : response * list event :=
  if negb isModelLoaded then (resp_unavailable, [])
  else if negb (truthy image) then (resp_no_image, [])
  else match decode_image image with
       | Err _ => (resp_bad_base64, [])
       | Ok imageBuffer => respond (pipeline isModelLoaded imageBuffer)
       end.

(** [POST /predict/upload] with [req.file], absent or holding a buffer. *)
Definition post_predict_upload (isModelLoaded : bool) (file : option (list Byte.byte))
    : response * list event :=
  if negb isModelLoaded then (resp_unavailable, [])
  else match file with
       | None => (resp_no_file, [])
       | Some buffer => respond (pipeline isModelLoaded buffer)
       end.

End Routes.

End Server.

(** ** The model's lifecycle (lines 24-55) *)

Module Lifecycle.

(** [let isModelLoaded = false] before [loadModel] has finished. *)
Definition isModelLoaded_initial : bool := false.

(** [loadModel]: [isModelLoaded] is set once [tf.loadGraphModel] resolves; a
    throw, of the load or of the logging that follows it, resets it. *)
Definition loadModel (load : res unit) (logging : res unit) : bool :=
  match load with
  | Err _ => false
  | Ok _ => match logging with Ok _ => true | Err _ => false end
  end.

End Lifecycle.

(** ** Binary32 values of the normalized tensor *)

Module F32.

Definition of_Z (z : Z) : spec_float := binary_normalize 24 128 z 0 false.

(** The binary32 quotient [b / 255], rounded once. *)
Definition quot255 (b : Byte.byte) : spec_float :=
  SFdiv 24 128 (of_Z (Z.of_N (Byte.to_N b))) (of_Z 255).

(** The slot written for a channel byte [b]: [b / 255.0] computed on numbers,
    then stored in the [Float32Array]. *)
Definition normalized (b : Byte.byte) : spec_float :=
  JS.fround (of_uint63 (Uint63.of_Z (Z.of_N (Byte.to_N b))) / 255)%float.

(** [0.0 <= x <= 1.0] on a binary32 value. *)
Definition in_unit (x : spec_float) : bool :=
  SFleb (S754_zero false) x && SFleb x (of_Z 1).

(** A [Float32Array] element read as a number: the binary32 value, widened
    exactly to binary64. *)
Definition to_number (v : spec_float) : float := SF2Prim v.

(** The values a [Float32Array] element can hold: zeros, infinities, NaN and
    the finite binary32 numbers (24-bit mantissa, exponent range of binary32). *)
Definition valid32 (v : spec_float) : bool :=
  match v with
  | S754_finite _ m e => SpecFloat.bounded 24 128 m e
  | _ => true
  end.

End F32.

(** ** The information routes (lines 26 and 126-142) *)

Module Info.

Import Server.
Local Open Scope string_scope.

(** [const classNames = ['Benigno', 'Maligno']]. *)
Definition classNames : list string := ["Benigno"; "Maligno"].


(** The body of [GET /model/status] ([timestamp] left out). *)
Record model_status := { loaded : bool; classNames_of : list string }.

Definition get_model_status (isModelLoaded : bool) : model_status :=
  {| loaded := isModelLoaded; classNames_of := classNames |}.

End Info.

(** ** The tensors of [makePrediction] (lines 94-124) *)

Module Tensors.

Import Pre Interp.

Section Model.

(** The tensor [model.predict] returns. *)
Variable P : Type.
(** [model.predict(imageTensor)]: the prediction tensor, or a throw. *)
Variable predict : tensor -> res P.
(** [await prediction.data()]: its values, or a rejection. *)
Variable data_of : P -> res (list float).

(** The calls made on the model and on the tensors, in order. *)
Inductive effect :=
| Predict (t : tensor)
| Data (p : P)
| DisposeInput (t : tensor)
| DisposeOutput (p : P).

(** [predictionData[0]]: the first element, or [undefined] on an empty array. *)
Definition first_value (d : list float) : option float := hd_error d.

(** The object [makePrediction] returns, with [rawPrediction] the value read,
    a number or [undefined]. *)
Record result_js := {
  diagnosis_js : diagnosis;
  confidence_js : float;
  rawPrediction_js : Server.jsval }.

(** Lines 109-117 on the value read: [undefined > 0.5] is false and
    [1 - undefined] is NaN, so [undefined] takes part in the arithmetic as NaN,
    while [rawPrediction] keeps it as it is. *)
Definition interpret_js (confidence : option float) : result_js :=
  let r := interpret (match confidence with Some x => x | None => nan end) in
  {| diagnosis_js := diagnosis_of r;
     confidence_js := confidence_of r;
     rawPrediction_js :=
       match confidence with Some x => Server.JNum x | None => Server.JUndefined end |}.

(** [makePrediction] with its tensors: both are disposed once the data has
    been read; any throw leaves the try block and is replaced by
    [msg_prediccion]. *)
Definition makePrediction (isModelLoaded : bool) (imageTensor : tensor)
    : res result_js * list effect :=
  if negb isModelLoaded then (Err Server.msg_prediccion, [])
  else
    match predict imageTensor with
    | Err _ => (Err Server.msg_prediccion, [Predict imageTensor])
    | Ok prediction =>
        match data_of prediction with
        | Err _ => (Err Server.msg_prediccion, [Predict imageTensor; Data prediction])
        | Ok predictionData =>
            (Ok (interpret_js (first_value predictionData)),
             [Predict imageTensor; Data prediction; DisposeInput imageTensor;
              DisposeOutput prediction])
        end
    end.

End Model.

Arguments Predict {P} t.
Arguments Data {P} p.
Arguments DisposeInput {P} t.
Arguments DisposeOutput {P} p.

End Tensors.

(** ** Lower-case letters, the class [[a-z]] of the data URL regular expression *)

Module Chars.

Definition lower (c : ascii) : bool :=
  (Nat.leb 97 (nat_of_ascii c) && Nat.leb (nat_of_ascii c) 122)%bool.

End Chars.

(** ** Shutdown (lines 24, 29-55 and 278-293) *)

Module Shutdown.

Section Model.

Variable M : Type.

Inductive effect :=
| Dispose (m : M)
| Exit (code : Z).

(** [loadModel] with the [model] variable: [model] is assigned as soon as
    [tf.loadGraphModel] resolves, before the logging that may still throw and
    reset [isModelLoaded]. The result is [(model, isModelLoaded)]. *)
Definition loadModel (load : res M) (logging : res unit) : option M * bool :=
  match load with
  | Err _ => (None, false)
  | Ok m => (Some m, match logging with Ok _ => true | Err _ => false end)
  end.

(** The SIGINT and SIGTERM handlers: [if (model) model.dispose();
    process.exit(0)]. *)
Definition on_signal (model : option M) : list effect :=
  match model with
  | Some m => [Dispose m; Exit 0]
  | None => [Exit 0]
  end.

End Model.

Arguments Dispose {M} m.
Arguments Exit {M} code.

End Shutdown.

(** ** Values of binary64 numbers

    The real value of a finite [spec_float], and the bounds used to follow a
    number through the rounded operations of [makePrediction]. *)

Module FloatVal.

(** [2 ^ e] as a real number. *)
Definition bpow (e : Z) : R := powerRZ 2 e.

(** [M / 2^k] rounded to the nearest integer, ties to even. *)
Definition rne_div (M k : Z) : Z :=
  let q := M / 2 ^ k in
  match Z.compare (2 * (M mod 2 ^ k)) (2 ^ k) with
  | Lt => q | Gt => q + 1 | Eq => if Z.even q then q else q + 1
  end.

(** The real value of a finite number; zeros, infinities and NaN are sent to 0. *)
Definition val (f : spec_float) : R :=
  match f with
  | S754_finite s m e =>
      if s then (- (IZR (Zpos m) * bpow e))%R else (IZR (Zpos m) * bpow e)%R
  | _ => 0%R
  end.

(** A shift record [r] at exponent [e] describes the real [x]: its mantissa is
    [x] truncated, and its round and sticky bits say whether something was lost. *)
Definition rec_ok (r : shr_record) (e : Z) (x : R) : Prop :=
  0 <= shr_m r /\
  if shr_r r || shr_s r
  then (IZR (shr_m r) * bpow e < x < IZR (shr_m r + 1) * bpow e)%R
  else x = (IZR (shr_m r) * bpow e)%R.

(** [f] is +infinity or a positive finite number of value at least [a]. *)
Definition atleast (a : R) (f : spec_float) : Prop :=
  match f with
  | S754_infinity false => True
  | S754_finite false m e => (a <= IZR (Zpos m) * bpow e)%R
  | _ => False
  end.

(** [f] is not NaN and not +infinity, and a positive finite [f] has value at most [a]. *)
Definition atmost (a : R) (f : spec_float) : Prop :=
  match f with
  | S754_zero _ | S754_infinity true | S754_finite true _ _ => True
  | S754_finite false m e => (IZR (Zpos m) * bpow e <= a)%R
  | _ => False
  end.

(** Zeros and finite numbers. *)
Definition finz (f : spec_float) : Prop :=
  match f with S754_zero _ | S754_finite _ _ _ => True | _ => False end.

End FloatVal.

(** * Properties *)

(** ** The normalizer's loop *)

Module NormalizerFacts.

Import Pre.
Local Open Scope nat_scope.

Lemma store_length a k v : List.length (store a k v) = List.length a.
Proof.
  revert k; induction a as [|x a IH]; intros [|k]; simpl; auto.
Qed.

Lemma store_same a k v :
  k < List.length a -> nth_error (store a k v) k = Some (JS.fround v).
Proof.
  revert k; induction a as [|x a IH]; intros [|k] Hk; simpl in *; try lia; auto.
  apply IH; lia.
Qed.

Lemma store_other a k p v :
  p <> k -> nth_error (store a k v) p = nth_error a p.
Proof.
  revert k p; induction a as [|x a IH]; intros [|k] [|p] Hp; simpl; auto;
    try lia; apply IH; lia.
Qed.

Lemma byte_slot d j b :
  nth_error d j = Some b -> JS.fround (byte_at d j / 255)%float = F32.normalized b.
Proof. intros H; unfold byte_at; rewrite H; reflexivity. Qed.

Section Loop.

Variable d : list Byte.byte.
Variable N : nat.
Hypothesis Hd : List.length d = 4 * N.

(** What the first [j] iterations have written. *)
Definition filled (j : nat) (a : list spec_float) : Prop :=
  List.length a = 3 * N /\
  forall q c, q < j -> c < 3 ->
    exists b, nth_error d (4 * q + c) = Some b /\
              nth_error a (3 * q + c) = Some (F32.normalized b).

Lemma nth_byte q c : q < N -> c < 4 -> exists b, nth_error d (4 * q + c) = Some b.
Proof.
  intros Hq Hc.
  destruct (nth_error d (4 * q + c)) as [b|] eqn:E; [eauto|].
  apply nth_error_None in E; lia.
Qed.

Lemma filled_step j a :
  j < N -> filled j a ->
  filled (S j)
    (store (store (store a (3 * j) (byte_at d (4 * j) / 255)%float)
                  (3 * j + 1) (byte_at d (4 * j + 1) / 255)%float)
           (3 * j + 2) (byte_at d (4 * j + 2) / 255)%float).
Proof.
  intros Hj [Hlen Ha]. split.
  - rewrite !store_length; exact Hlen.
  - intros q c Hq Hc.
    destruct (Nat.eq_dec q j) as [->|Hne].
    + destruct (nth_byte j c Hj) as [b Hb]; [lia|].
      exists b; split; [exact Hb|].
      rewrite <- (byte_slot _ _ _ Hb).
      destruct c as [|[|[|c]]]; try lia;
        rewrite ?Nat.add_0_r in *;
        repeat first [ rewrite store_same by (rewrite ?store_length; lia)
                     | rewrite store_other by lia ]; reflexivity.
    + destruct (Ha q c) as [b [Hb Hv]]; [lia|lia|].
      exists b; split; [exact Hb|].
      rewrite !store_other by nia. exact Hv.
Qed.

Lemma rgb_loop_filled fuel j a :
  N - j <= fuel -> j <= N -> filled j a ->
  filled N (rgb_loop fuel d (4 * j) (3 * j) a).
Proof.
  revert j a; induction fuel as [|fuel IH]; intros j a Hf Hj Ha; cbn [rgb_loop].
  - replace j with N in Ha by lia. exact Ha.
  - rewrite Hd. destruct (Nat.ltb_spec (4 * j) (4 * N)) as [Hlt|Hge].
    + replace (4 * j + 4) with (4 * S j) by lia.
      replace (3 * j + 3) with (3 * S j) by lia.
      apply IH; [lia|lia|].
      apply filled_step; [lia|exact Ha].
    + replace j with N in Ha by lia. exact Ha.
Qed.

End Loop.

(** The loop fills the whole array of a bitmap whose data holds four bytes per
    pixel. *)
Lemma rgbData_filled (img : bitmap) (N : nat) :
  width img * height img = N -> List.length (data img) = 4 * N ->
  filled (data img) N N (rgbData_of img).
Proof.
  intros Hwh Hd. unfold rgbData_of.
  change (rgb_loop (List.length (data img)) (data img) 0 0)
    with (rgb_loop (List.length (data img)) (data img) (4 * 0) (3 * 0)).
  apply rgb_loop_filled; [exact Hd|lia|lia|].
  split.
  - rewrite repeat_length; nia.
  - intros q c Hq; lia.
Qed.

(** [preprocessImage] on a buffer that Jimp reads and resizes to a 224x224
    RGBA bitmap. *)
Lemma preprocess_ok jimp_read jimp_resize imageBuffer img :
  jimp_read imageBuffer = Ok img ->
  width (jimp_resize 224 224 img) = 224 ->
  height (jimp_resize 224 224 img) = 224 ->
  List.length (data (jimp_resize 224 224 img)) = 224 * 224 * 4 ->
  preprocessImage jimp_read jimp_resize imageBuffer
    = Ok (expandDims0 {| shape := [224; 224; 3];
                         values := rgbData_of (jimp_resize 224 224 img) |}) /\
  filled (data (jimp_resize 224 224 img)) (224 * 224) (224 * 224)
    (rgbData_of (jimp_resize 224 224 img)).
Proof.
  intros Hread Hw Hh Hlen.
  assert (Hf : filled (data (jimp_resize 224 224 img)) (224 * 224) (224 * 224)
                 (rgbData_of (jimp_resize 224 224 img))).
  { apply rgbData_filled; [rewrite Hw, Hh; reflexivity|].
    rewrite Hlen; apply Nat.mul_comm. }
  split; [|exact Hf].
  unfold preprocessImage; rewrite Hread.
  unfold tensor3d. destruct Hf as [Hl _]. rewrite Hl.
  change (product [224; 224; 3]) with (224 * (224 * (3 * 1))).
  replace (224 * (224 * (3 * 1))) with (3 * (224 * 224)) 
    by (rewrite Nat.mul_1_r, (Nat.mul_comm 3); symmetry; apply Nat.mul_assoc).
  rewrite Nat.eqb_refl. reflexivity.
Qed.

End NormalizerFacts.

(** ** Binary32 values of the normalized channels *)

Module F32Facts.

(** Each of the 256 channel bytes: the slot holds the correctly rounded
    binary32 quotient [b / 255], which lies in [[0, 1]]. *)
Lemma normalized_byte (b : Byte.byte) :
  F32.normalized b = F32.quot255 b /\ F32.in_unit (F32.normalized b) = true.
Proof. destruct b; vm_compute; split; reflexivity. Qed.

End F32Facts.

(** ** Rounded arithmetic of binary64 numbers *)

Module FloatFacts.
Import FloatVal.

Lemma bpow_pos e : (0 < bpow e)%R.
Proof. apply powerRZ_lt; lra. Qed.

Lemma bpow_plus a b : bpow (a + b) = (bpow a * bpow b)%R.
Proof. apply powerRZ_add; lra. Qed.

Lemma bpow_Z k : 0 <= k -> bpow k = IZR (2 ^ k).
Proof.
  intros Hk. destruct k as [|p|p]; [reflexivity| |lia].
  unfold bpow; simpl powerRZ. rewrite pow_IZR, positive_nat_Z. reflexivity.
Qed.

Lemma bpow_le a b : a <= b -> (bpow a <= bpow b)%R.
Proof.
  intros H. replace b with (a + (b - a)) by lia. rewrite bpow_plus, (bpow_Z (b - a)) by lia.
  pose proof (bpow_pos a). assert (1 <= 2 ^ (b - a)) by (pose proof (Z.pow_pos_nonneg 2 (b - a)); lia).
  apply IZR_le in H1. nra.
Qed.

Lemma bpow_lt a b : a < b -> (bpow a < bpow b)%R.
Proof.
  intros H. replace b with (a + (b - a)) by lia. rewrite bpow_plus, (bpow_Z (b - a)) by lia.
  pose proof (bpow_pos a).
  assert (2 <= 2 ^ (b - a)).
  { replace (b - a) with (1 + (b - a - 1)) by lia. rewrite Z.pow_add_r by lia.
    pose proof (Z.pow_pos_nonneg 2 (b - a - 1)). lia. }
  apply IZR_le in H1. nra.
Qed.

Lemma bpow_lt_rev a b : (bpow a < bpow b)%R -> a < b.
Proof. intros H. destruct (Z_lt_le_dec a b); auto. apply bpow_le in l. lra. Qed.

Lemma bpow_le_rev a b : (bpow a <= bpow b)%R -> a <= b.
Proof. intros H. destruct (Z_le_gt_dec a b); auto. assert (b < a) as g2 by lia. apply bpow_lt in g2. lra. Qed.

Lemma scale_le a b e : (IZR a * bpow e <= IZR b * bpow e)%R -> a <= b.
Proof.
  intros H. apply le_IZR. apply Rmult_le_reg_r with (bpow e); [apply bpow_pos | lra].
Qed.

Lemma scale_lt a b e : (IZR a * bpow e < IZR b * bpow e)%R -> a < b.
Proof.
  intros H. apply lt_IZR. apply Rmult_lt_reg_r with (bpow e); [apply bpow_pos | lra].
Qed.

Lemma scale_le_intro a b e : a <= b -> (IZR a * bpow e <= IZR b * bpow e)%R.
Proof.
  intros H. apply Rmult_le_compat_r; [left; apply bpow_pos | apply IZR_le; lia].
Qed.

Lemma scale_lt_intro a b e : a < b -> (IZR a * bpow e < IZR b * bpow e)%R.
Proof.
  intros H. apply Rmult_lt_compat_r; [apply bpow_pos | apply IZR_lt; lia].
Qed.

Lemma shift_val a e k : 0 <= k -> (IZR a * bpow (e + k))%R = (IZR (a * 2 ^ k) * bpow e)%R.
Proof. intros Hk. rewrite bpow_plus, (bpow_Z k), mult_IZR by lia. ring. Qed.

Lemma pos_val_pos m e : (0 < IZR (Zpos m) * bpow e)%R.
Proof. pose proof (bpow_pos e). pose proof (IZR_lt 0 (Zpos m) (eq_refl)). nra. Qed.

(** Number of binary digits of a positive mantissa. *)
Lemma digits2_pos_spec m :
  2 ^ (Zpos (digits2_pos m) - 1) <= Zpos m < 2 ^ Zpos (digits2_pos m).
Proof.
  induction m as [m IH|m IH|]; simpl digits2_pos; [| |simpl; lia];
    rewrite Pos2Z.inj_succ;
    set (d := Zpos (digits2_pos m)) in *; assert (1 <= d) by lia;
    assert (E1 : 2 ^ (Z.succ d - 1) = 2 * 2 ^ (d - 1))
      by (rewrite <- Z.pow_succ_r by lia; f_equal; lia);
    assert (E2 : 2 ^ Z.succ d = 2 * 2 ^ d) by (apply Z.pow_succ_r; lia);
    assert (E3 : 2 ^ d = 2 * 2 ^ (d - 1))
      by (rewrite <- Z.pow_succ_r by lia; f_equal; lia);
    rewrite E1, E2; try rewrite (Pos2Z.inj_xI m); try rewrite (Pos2Z.inj_xO m); lia.
Qed.

Lemma digits_unique n a b :
  2 ^ (a - 1) <= n < 2 ^ a -> 2 ^ (b - 1) <= n < 2 ^ b -> 1 <= a -> 1 <= b -> a = b.
Proof.
  intros Ha Hb H1 H2. destruct (Z.lt_trichotomy a b) as [H|[H|H]]; auto.
  - assert (2 ^ a <= 2 ^ (b - 1)) by (apply Z.pow_le_mono_r; lia). lia.
  - assert (2 ^ b <= 2 ^ (a - 1)) by (apply Z.pow_le_mono_r; lia). lia.
Qed.

Lemma fexp_eq e : fexp 53 1024 e = Z.max (e - 53) (-1074).
Proof. reflexivity. Qed.

Lemma bpow_1 : bpow 1 = 2%R.
Proof. unfold bpow; simpl; ring. Qed.

Lemma IZR_xI q : IZR (Zpos q~1) = (2 * IZR (Zpos q) + 1)%R.
Proof. rewrite Pos2Z.inj_xI, plus_IZR, mult_IZR. reflexivity. Qed.

Lemma IZR_xO q : IZR (Zpos q~0) = (2 * IZR (Zpos q))%R.
Proof. rewrite Pos2Z.inj_xO, mult_IZR. reflexivity. Qed.

Lemma rec_ok_lo r e x : rec_ok r e x -> (IZR (shr_m r) * bpow e <= x)%R.
Proof. unfold rec_ok. intros [_ H]. destruct (shr_r r || shr_s r); lra. Qed.

Lemma rec_ok_hi r e x : rec_ok r e x -> (x < IZR (shr_m r + 1) * bpow e)%R.
Proof.
  unfold rec_ok. intros [_ H]. pose proof (bpow_pos e).
  rewrite plus_IZR in *. destruct (shr_r r || shr_s r); nra.
Qed.

Lemma rec_ok_nonneg r e x : rec_ok r e x -> 0 <= shr_m r.
Proof. now intros [H _]. Qed.

Lemma shr_1_ok r e x : rec_ok r e x -> rec_ok (shr_1 r) (e + 1) x.
Proof.
  destruct r as [m rb sb]; unfold rec_ok; simpl; intros [Hm H].
  rewrite bpow_plus. rewrite bpow_1. pose proof (bpow_pos e) as Hb.
  destruct m as [|p|p]; [ | destruct p as [q|q|] | lia ]; cbn [shr_1 shr_m shr_r shr_s];
    try rewrite plus_IZR in *; try rewrite IZR_xI in *; try rewrite IZR_xO in *;
    split; try lia; destruct (rb || sb); cbn [orb] in *; nra.
Qed.

Lemma iter_shr_ok p : forall r e x,
  rec_ok r e x -> rec_ok (SpecFloat.iter_pos shr_1 p r) (e + Zpos p) x.
Proof.
  induction p as [p IH|p IH|]; intros r e x H; simpl.
  - replace (e + Zpos p~1) with (e + 1 + Zpos p + Zpos p) by lia.
    apply IH, IH, shr_1_ok, H.
  - replace (e + Zpos p~0) with (e + Zpos p + Zpos p) by lia.
    apply IH, IH, H.
  - apply shr_1_ok, H.
Qed.

Lemma record_of_loc_ok m (l : location) x e :
  0 <= m ->
  (if l then x = (IZR m * bpow e)%R
   else (IZR m * bpow e < x < IZR (m + 1) * bpow e)%R) ->
  rec_ok (shr_record_of_loc m l) e x.
Proof. intros Hm H. destruct l as [|c]; [|destruct c]; split; simpl; auto. Qed.

Lemma shr_m_of_loc m (l : location) : shr_m (shr_record_of_loc m l) = m.
Proof. destruct l as [|[]]; reflexivity. Qed.

Lemma shr_fexp_ok mx ex lx x r e' :
  shr_fexp 53 1024 mx ex lx = (r, e') ->
  rec_ok (shr_record_of_loc mx lx) ex x ->
  rec_ok r e' x /\ e' = Z.max ex (fexp 53 1024 (Zdigits2 mx + ex)) /\
  (fexp 53 1024 (Zdigits2 mx + ex) <= ex -> r = shr_record_of_loc mx lx).
Proof.
  intros E H. unfold shr_fexp, shr in E.
  destruct (fexp 53 1024 (Zdigits2 mx + ex) - ex) as [|p|p] eqn:E2;
    injection E as <- <-.
  - split; [exact H|]. split; [lia|auto].
  - split; [apply iter_shr_ok; auto|]. split; [lia|]. intros; lia.
  - split; [exact H|]. split; [lia|auto].
Qed.

Lemma shr_big mx ex lx x r e' :
  shr_fexp 53 1024 mx ex lx = (r, e') ->
  0 <= mx -> rec_ok (shr_record_of_loc mx lx) ex x ->
  (lx = loc_Exact \/ ex <= fexp 53 1024 (Zdigits2 mx + ex)) ->
  (x = (IZR (shr_m r) * bpow e')%R /\ shr_r r = false /\ shr_s r = false)
  \/ (-1074 < e' -> 2 ^ 52 <= shr_m r).
Proof.
  intros E Hm H Hpre. destruct (shr_fexp_ok mx ex lx x r e' E H) as (Hok & He & Hno).
  destruct (Z_lt_le_dec (fexp 53 1024 (Zdigits2 mx + ex)) ex) as [Hlt|Hge].
  - left. destruct Hpre as [Hl|Hl]; [|lia]. subst lx.
    rewrite Hno by lia. rewrite He. replace (Z.max _ _) with ex by lia.
    destruct H as [_ H]. exact (conj H (conj eq_refl eq_refl)).
  - right. intros Hgt. rewrite He in *.
    replace (Z.max ex _) with (fexp 53 1024 (Zdigits2 mx + ex)) in * by lia.
    rewrite fexp_eq in *.
    destruct mx as [|p|p]; [simpl Zdigits2 in *; lia | | lia].
    change (Zdigits2 (Zpos p)) with (Zpos (digits2_pos p)) in *.
    pose proof (digits2_pos_spec p) as [Hd1 Hd2].
    replace (Z.max _ _) with (Zpos (digits2_pos p) + ex - 53) in * by lia.
    apply rec_ok_lo in H. rewrite shr_m_of_loc in H.
    apply rec_ok_hi in Hok.
    assert (A : (IZR (2 ^ 52) * bpow (Zpos (digits2_pos p) + ex - 53)
                 <= IZR (Zpos p) * bpow ex)%R).
    { rewrite <- bpow_Z by lia. rewrite <- bpow_plus.
      replace (52 + (Zpos (digits2_pos p) + ex - 53)) with ((Zpos (digits2_pos p) - 1) + ex) by lia.
      rewrite bpow_plus, bpow_Z by lia. apply scale_le_intro. lia. }
    assert (2 ^ 52 < shr_m r + 1) by (apply scale_lt with (e := Zpos (digits2_pos p) + ex - 53); lra).
    lia.
Qed.

Lemma bpow_53_lt F G : 0 < F < 2 ^ 53 -> (IZR F * bpow G < bpow (53 + G))%R.
Proof.
  intros HF. rewrite bpow_plus, (bpow_Z 53) by lia. apply scale_lt_intro. lia.
Qed.

Lemma big_ge m e : 2 ^ 52 <= m -> (bpow (52 + e) <= IZR m * bpow e)%R.
Proof. intros Hm. rewrite bpow_plus, (bpow_Z 52) by lia. apply scale_le_intro. lia. Qed.

Lemma shr_lb mx ex lx x F G r e' :
  shr_fexp 53 1024 mx ex lx = (r, e') ->
  0 <= mx -> rec_ok (shr_record_of_loc mx lx) ex x ->
  (lx = loc_Exact \/ ex <= fexp 53 1024 (Zdigits2 mx + ex)) ->
  0 < F < 2 ^ 53 -> -1074 <= G -> (IZR F * bpow G <= x)%R ->
  (IZR F * bpow G <= IZR (shr_m r) * bpow e')%R.
Proof.
  intros E Hm H Hpre HF HG Hx.
  destruct (shr_fexp_ok mx ex lx x r e' E H) as (Hok & _ & _).
  destruct (shr_big mx ex lx x r e' E Hm H Hpre) as [(Hx' & _ & _)|Hbig];
    [rewrite <- Hx'; exact Hx|].
  destruct (Z_le_gt_dec e' G) as [HeG|HeG].
  - assert (Eq : (IZR F * bpow G)%R = (IZR (F * 2 ^ (G - e')) * bpow e')%R)
      by (rewrite <- shift_val by lia; do 2 f_equal; lia).
    rewrite Eq in *. apply rec_ok_hi in Hok.
    assert (F * 2 ^ (G - e') < shr_m r + 1) by (apply scale_lt with (e := e'); lra).
    apply scale_le_intro. lia.
  - specialize (Hbig ltac:(lia)). pose proof (bpow_53_lt F G HF).
    pose proof (big_ge _ e' Hbig). pose proof (bpow_le (53 + G) (52 + e') ltac:(lia)). lra.
Qed.

Lemma shr_ub mx ex lx x F G r e' :
  shr_fexp 53 1024 mx ex lx = (r, e') ->
  0 <= mx -> rec_ok (shr_record_of_loc mx lx) ex x ->
  (lx = loc_Exact \/ ex <= fexp 53 1024 (Zdigits2 mx + ex)) ->
  0 < F < 2 ^ 53 -> -1074 <= G -> (x <= IZR F * bpow G)%R ->
  shr_r r || shr_s r = true ->
  (IZR (shr_m r + 1) * bpow e' <= IZR F * bpow G)%R.
Proof.
  intros E Hm H Hpre HF HG Hx Hin.
  destruct (shr_fexp_ok mx ex lx x r e' E H) as ((_ & Hok) & _ & _).
  rewrite Hin in Hok.
  destruct (shr_big mx ex lx x r e' E Hm H Hpre) as [(_ & Hr & Hs)|Hbig];
    [rewrite Hr, Hs in Hin; discriminate|].
  destruct (Z_le_gt_dec e' G) as [HeG|HeG].
  - assert (Eq : (IZR F * bpow G)%R = (IZR (F * 2 ^ (G - e')) * bpow e')%R)
      by (rewrite <- shift_val by lia; do 2 f_equal; lia).
    rewrite Eq in *.
    assert (shr_m r < F * 2 ^ (G - e')) by (apply scale_lt with (e := e'); lra).
    apply scale_le_intro. lia.
  - specialize (Hbig ltac:(lia)). pose proof (bpow_53_lt F G HF).
    pose proof (big_ge _ e' Hbig). pose proof (bpow_le (53 + G) (52 + e') ltac:(lia)). lra.
Qed.

Lemma rne_bounds r :
  shr_m r <= round_nearest_even (shr_m r) (loc_of_shr_record r)
          <= shr_m r + (if shr_r r || shr_s r then 1 else 0).
Proof.
  destruct r as [m [] []]; unfold loc_of_shr_record, round_nearest_even; cbn [shr_m shr_r shr_s orb];
    try destruct (Z.even m); lia.
Qed.

Lemma rec_exact m e : 0 <= m -> rec_ok (shr_record_of_loc m loc_Exact) e (IZR m * bpow e)%R.
Proof. intros Hm. split; simpl; auto. Qed.

Lemma round_aux_lb mx ex lx x F G :
  0 <= mx -> rec_ok (shr_record_of_loc mx lx) ex x ->
  (lx = loc_Exact \/ ex <= fexp 53 1024 (Zdigits2 mx + ex)) ->
  0 < F < 2 ^ 53 -> -1074 <= G -> (IZR F * bpow G <= x)%R ->
  atleast (IZR F * bpow G) (binary_round_aux 53 1024 false mx ex lx).
Proof.
  intros Hm H Hpre HF HG Hx. unfold binary_round_aux.
  destruct (shr_fexp 53 1024 mx ex lx) as [r1 e1] eqn:E1.
  pose proof (shr_lb mx ex lx x F G r1 e1 E1 Hm H Hpre HF HG Hx) as L1.
  destruct (shr_fexp_ok mx ex lx x r1 e1 E1 H) as (Hok1 & _ & _).
  pose proof (rec_ok_nonneg _ _ _ Hok1) as Hm1.
  pose proof (rne_bounds r1) as [B1 _].
  set (mr := round_nearest_even (shr_m r1) (loc_of_shr_record r1)) in *.
  destruct (shr_fexp 53 1024 mr e1 loc_Exact) as [r2 e2] eqn:E2.
  assert (L2 : (IZR F * bpow G <= IZR (shr_m r2) * bpow e2)%R).
  { apply (shr_lb mr e1 loc_Exact (IZR mr * bpow e1)%R F G r2 e2 E2); auto; try lia.
    - apply rec_exact; lia.
    - pose proof (scale_le_intro _ _ e1 B1). lra. }
  destruct (shr_fexp_ok mr e1 loc_Exact _ r2 e2 E2 (rec_exact mr e1 ltac:(lia))) as (Hok2 & _ & _).
  pose proof (rec_ok_nonneg _ _ _ Hok2) as Hm2.
  destruct (shr_m r2) as [|p|p]; [| |lia].
  - exfalso. pose proof (IZR_lt 0 F ltac:(lia)). pose proof (bpow_pos G).
    rewrite Rmult_0_l in L2. nra.
  - destruct (e2 <=? 1024 - 53); simpl; auto.
Qed.

Lemma round_aux_ub mx ex lx x F G :
  0 <= mx -> rec_ok (shr_record_of_loc mx lx) ex x ->
  (lx = loc_Exact \/ ex <= fexp 53 1024 (Zdigits2 mx + ex)) ->
  0 < F < 2 ^ 53 -> -1074 <= G -> G + 53 <= 971 -> (x <= IZR F * bpow G)%R ->
  atmost (IZR F * bpow G) (binary_round_aux 53 1024 false mx ex lx).
Proof.
  intros Hm H Hpre HF HG HG2 Hx. unfold binary_round_aux.
  destruct (shr_fexp 53 1024 mx ex lx) as [r1 e1] eqn:E1.
  destruct (shr_fexp_ok mx ex lx x r1 e1 E1 H) as (Hok1 & _ & _).
  pose proof (rec_ok_nonneg _ _ _ Hok1) as Hm1.
  pose proof (rne_bounds r1) as [B1 B2].
  assert (L1 : (IZR (round_nearest_even (shr_m r1) (loc_of_shr_record r1)) * bpow e1
                <= IZR F * bpow G)%R).
  { destruct (shr_r r1 || shr_s r1) eqn:Hin.
    - pose proof (shr_ub mx ex lx x F G r1 e1 E1 Hm H Hpre HF HG Hx Hin).
      pose proof (scale_le_intro _ _ e1 B2). lra.
    - assert (Hmr : round_nearest_even (shr_m r1) (loc_of_shr_record r1) = shr_m r1) by lia.
      rewrite Hmr. destruct Hok1 as [_ Hok1]. rewrite Hin in Hok1. lra. }
  set (mr := round_nearest_even (shr_m r1) (loc_of_shr_record r1)) in *.
  destruct (shr_fexp 53 1024 mr e1 loc_Exact) as [r2 e2] eqn:E2.
  destruct (shr_fexp_ok mr e1 loc_Exact _ r2 e2 E2 (rec_exact mr e1 ltac:(lia))) as (Hok2 & _ & _).
  pose proof (rec_ok_nonneg _ _ _ Hok2) as Hm2.
  pose proof (rec_ok_lo _ _ _ Hok2) as L2.
  destruct (shr_m r2) as [|p|p]; [simpl; auto| |lia].
  destruct (e2 <=? 1024 - 53) eqn:He2; simpl; [lra|].
  exfalso. apply Z.leb_gt in He2.
  pose proof (bpow_53_lt F G HF). pose proof (bpow_le (53 + G) 971 ltac:(lia)).
  assert (Hp1 : 1 <= Zpos p) by lia.
  pose proof (scale_le_intro 1 (Zpos p) e2 Hp1) as Hp2. rewrite Rmult_1_l in Hp2.
  pose proof (bpow_lt 971 e2 ltac:(lia)). lra.
Qed.

Lemma round_aux_nonneg mx ex lx x :
  0 <= mx -> rec_ok (shr_record_of_loc mx lx) ex x ->
  match binary_round_aux 53 1024 false mx ex lx with
  | S754_zero false | S754_infinity false | S754_finite false _ _ => True
  | _ => False
  end.
Proof.
  intros Hm H. unfold binary_round_aux.
  destruct (shr_fexp 53 1024 mx ex lx) as [r1 e1] eqn:E1.
  destruct (shr_fexp_ok mx ex lx x r1 e1 E1 H) as (Hok1 & _ & _).
  pose proof (rec_ok_nonneg _ _ _ Hok1) as Hm1.
  pose proof (rne_bounds r1) as [B1 _].
  set (mr := round_nearest_even (shr_m r1) (loc_of_shr_record r1)) in *.
  destruct (shr_fexp 53 1024 mr e1 loc_Exact) as [r2 e2] eqn:E2.
  destruct (shr_fexp_ok mr e1 loc_Exact _ r2 e2 E2 (rec_exact mr e1 ltac:(lia))) as (Hok2 & _ & _).
  pose proof (rec_ok_nonneg _ _ _ Hok2) as Hm2.
  destruct (shr_m r2) as [|p|p]; [simpl; auto| |lia].
  destruct (e2 <=? 1024 - 53); simpl; auto.
Qed.

Lemma round_aux_opp mx ex lx :
  binary_round_aux 53 1024 true mx ex lx = SFopp (binary_round_aux 53 1024 false mx ex lx).
Proof.
  unfold binary_round_aux.
  destruct (shr_fexp 53 1024 mx ex lx) as [r1 e1].
  destruct (shr_fexp 53 1024 _ e1 loc_Exact) as [r2 e2].
  destruct (shr_m r2) as [|p|p]; simpl; auto. destruct (e2 <=? _); reflexivity.
Qed.

Lemma iter_xO m d : Zpos (Pos.iter xO m d) = Zpos m * 2 ^ Zpos d.
Proof.
  induction d as [|d IH] using Pos.peano_ind.
  - change (Pos.iter xO m 1) with (xO m). rewrite Pos2Z.inj_xO. change (2 ^ Zpos 1) with 2. ring.
  - rewrite Pos.iter_succ, Pos2Z.inj_xO, IH, Pos2Z.inj_succ, Z.pow_succ_r by lia. ring.
Qed.

Lemma shl_align_val mx ex ez :
  (IZR (Zpos (fst (shl_align mx ex ez))) * bpow (snd (shl_align mx ex ez)))%R
  = (IZR (Zpos mx) * bpow ex)%R.
Proof.
  unfold shl_align. destruct (ez - ex) as [|p|p] eqn:E; simpl; auto.
  rewrite iter_xO. replace ex with (ez + Zpos p) by lia. symmetry. apply shift_val. lia.
Qed.

Lemma shl_align_exp mx ex ez : ez <= ex -> snd (shl_align mx ex ez) = ez.
Proof. intros H. unfold shl_align. destruct (ez - ex) eqn:E; simpl; lia. Qed.

Lemma round_rec mx ex :
  let '(mz, ez) := shl_align mx ex (fexp 53 1024 (Zpos (digits2_pos mx) + ex)) in
  rec_ok (shr_record_of_loc (Zpos mz) loc_Exact) ez (IZR (Zpos mx) * bpow ex)%R.
Proof.
  pose proof (shl_align_val mx ex (fexp 53 1024 (Zpos (digits2_pos mx) + ex))) as H.
  destruct (shl_align _ _ _) as [mz ez]. simpl in H. rewrite <- H. apply rec_exact. lia.
Qed.

Lemma round_lb mx ex F G :
  0 < F < 2 ^ 53 -> -1074 <= G -> (IZR F * bpow G <= IZR (Zpos mx) * bpow ex)%R ->
  atleast (IZR F * bpow G) (binary_round 53 1024 false mx ex).
Proof.
  intros HF HG Hx. pose proof (round_rec mx ex) as H. unfold binary_round.
  destruct (shl_align _ _ _) as [mz ez].
  apply (round_aux_lb (Zpos mz) ez loc_Exact _ _ _ (Pos2Z.is_nonneg mz) H (or_introl eq_refl) HF HG Hx).
Qed.

Lemma round_ub mx ex F G :
  0 < F < 2 ^ 53 -> -1074 <= G -> G + 53 <= 971 ->
  (IZR (Zpos mx) * bpow ex <= IZR F * bpow G)%R ->
  atmost (IZR F * bpow G) (binary_round 53 1024 false mx ex).
Proof.
  intros HF HG HG2 Hx. pose proof (round_rec mx ex) as H. unfold binary_round.
  destruct (shl_align _ _ _) as [mz ez].
  apply (round_aux_ub (Zpos mz) ez loc_Exact _ _ _ (Pos2Z.is_nonneg mz) H (or_introl eq_refl) HF HG HG2 Hx).
Qed.

Lemma round_nonneg mx ex :
  match binary_round 53 1024 false mx ex with
  | S754_zero false | S754_infinity false | S754_finite false _ _ => True
  | _ => False
  end.
Proof.
  pose proof (round_rec mx ex) as H. unfold binary_round.
  destruct (shl_align _ _ _) as [mz ez]. exact (round_aux_nonneg (Zpos mz) ez loc_Exact _ (Pos2Z.is_nonneg mz) H).
Qed.

Lemma round_opp m e :
  binary_round 53 1024 true m e = SFopp (binary_round 53 1024 false m e).
Proof. unfold binary_round. destruct (shl_align _ _ _). apply round_aux_opp. Qed.

Lemma round_exact mx ex F G :
  0 < F < 2 ^ 53 -> -1074 <= G -> G + 53 <= 971 ->
  (IZR (Zpos mx) * bpow ex)%R = (IZR F * bpow G)%R ->
  exists m e, binary_round 53 1024 false mx ex = S754_finite false m e /\
              (IZR (Zpos m) * bpow e)%R = (IZR F * bpow G)%R.
Proof.
  intros HF HG HG2 Hx.
  pose proof (round_lb mx ex F G HF HG ltac:(lra)) as L.
  pose proof (round_ub mx ex F G HF HG HG2 ltac:(lra)) as U.
  destruct (binary_round 53 1024 false mx ex) as [[]|[]| |[] m e]; simpl in L, U; try tauto.
  exists m, e. split; [reflexivity | lra].
Qed.

Lemma normalize_lb N e F G :
  0 < F < 2 ^ 53 -> -1074 <= G -> (IZR F * bpow G <= IZR N * bpow e)%R ->
  atleast (IZR F * bpow G) (binary_normalize 53 1024 N e false).
Proof.
  intros HF HG Hx. pose proof (IZR_lt 0 F ltac:(lia)). pose proof (bpow_pos G).
  pose proof (bpow_pos e).
  destruct N as [|p|p]; simpl binary_normalize.
  - rewrite Rmult_0_l in Hx. nra.
  - apply round_lb; auto.
  - pose proof (IZR_lt (Zneg p) 0 eq_refl). nra.
Qed.

Lemma normalize_ub N e F G :
  0 < F < 2 ^ 53 -> -1074 <= G -> G + 53 <= 971 -> (IZR N * bpow e <= IZR F * bpow G)%R ->
  atmost (IZR F * bpow G) (binary_normalize 53 1024 N e false).
Proof.
  intros HF HG HG2 Hx. destruct N as [|p|p]; simpl binary_normalize.
  - exact I.
  - apply round_ub; auto.
  - rewrite round_opp. pose proof (round_nonneg p e) as H.
    destruct (binary_round 53 1024 false p e) as [[]|[]| |[] m e']; simpl; tauto.
Qed.

Lemma normalize_exact N e F G :
  0 < F < 2 ^ 53 -> -1074 <= G -> G + 53 <= 971 ->
  (IZR (Z.abs N) * bpow e)%R = (IZR F * bpow G)%R ->
  exists m e', binary_normalize 53 1024 N e false = S754_finite (N <? 0) m e' /\
               (IZR (Zpos m) * bpow e')%R = (IZR F * bpow G)%R.
Proof.
  intros HF HG HG2 Hx. destruct N as [|p|p]; simpl binary_normalize; simpl Z.abs in Hx.
  - exfalso. pose proof (IZR_lt 0 F ltac:(lia)). pose proof (bpow_pos G).
    rewrite Rmult_0_l in Hx. nra.
  - exact (round_exact p e F G HF HG HG2 Hx).
  - rewrite round_opp. destruct (round_exact p e F G HF HG HG2 Hx) as (m & e' & -> & Hv).
    exists m, e'. split; [reflexivity | exact Hv].
Qed.

(** ** Valid binary64 values *)

Lemma valid_bounds s m e :
  valid_binary (S754_finite s m e) = true ->
  Zpos m < 2 ^ 53 /\ -1074 <= e <= 971 /\ (e = -1074 \/ 2 ^ 52 <= Zpos m) /\
  fexp 53 1024 (Zpos (digits2_pos m) + e) = e.
Proof.
  unfold valid_binary, bounded, canonical_mantissa. intros H.
  apply andb_prop in H as [H1 H2]. apply Z.eqb_eq in H1. apply Z.leb_le in H2.
  pose proof (digits2_pos_spec m) as [Hd1 Hd2].
  set (d := Zpos (digits2_pos m)) in *. rewrite fexp_eq in H1.
  assert (d <= 53) by lia.
  assert (2 ^ d <= 2 ^ 53) by (apply Z.pow_le_mono_r; lia).
  change (emax - prec) with 971 in H2.
  split; [lia|]. split; [lia|]. split; [|rewrite fexp_eq; exact H1].
  destruct (Z.eq_dec e (-1074)) as [E|E]; [left; exact E|right].
  assert (d = 53) by lia. subst d. rewrite H3 in Hd1. exact Hd1.
Qed.

Lemma valid_lt_exp m1 e1 m2 e2 :
  valid_binary (S754_finite false m1 e1) = true ->
  valid_binary (S754_finite false m2 e2) = true ->
  e1 < e2 -> (IZR (Zpos m1) * bpow e1 < IZR (Zpos m2) * bpow e2)%R.
Proof.
  intros V1 V2 He.
  destruct (valid_bounds _ _ _ V1) as (H1 & H2 & _).
  destruct (valid_bounds _ _ _ V2) as (_ & _ & [H3|H3] & _); [lia|].
  pose proof (bpow_53_lt (Zpos m1) e1 ltac:(lia)). pose proof (big_ge _ e2 H3).
  pose proof (bpow_le (53 + e1) (52 + e2) ltac:(lia)). lra.
Qed.

Lemma cmp_pos m1 e1 m2 e2 :
  valid_binary (S754_finite false m1 e1) = true ->
  valid_binary (S754_finite false m2 e2) = true ->
  CompareSpec (IZR (Zpos m1) * bpow e1 = IZR (Zpos m2) * bpow e2)%R
    (IZR (Zpos m1) * bpow e1 < IZR (Zpos m2) * bpow e2)%R
    (IZR (Zpos m2) * bpow e2 < IZR (Zpos m1) * bpow e1)%R
    (match Z.compare e1 e2 with Lt => Lt | Gt => Gt | Eq => Pos.compare_cont Eq m1 m2 end).
Proof.
  intros V1 V2. destruct (Z.compare_spec e1 e2) as [E|E|E].
  - subst e2. change (Pos.compare_cont Eq m1 m2) with (Pos.compare m1 m2).
    destruct (Pos.compare_spec m1 m2) as [M|M|M]; constructor.
    + subst; reflexivity.
    + apply scale_lt_intro. lia.
    + apply scale_lt_intro. lia.
  - constructor. apply valid_lt_exp; auto.
  - constructor. apply valid_lt_exp; auto.
Qed.

Lemma cmp_neg c u v :
  CompareSpec (u = v) (u < v)%R (v < u)%R c ->
  CompareSpec (- u = - v)%R (- u < - v)%R (- v < - u)%R (CompOpp c).
Proof. intros H; destruct H; constructor; lra. Qed.

Lemma cmp_val a b :
  valid_binary a = true -> valid_binary b = true -> finz a -> finz b ->
  exists c, SFcompare a b = Some c /\ CompareSpec (val a = val b) (val a < val b)%R (val b < val a)%R c.
Proof.
  intros Va Vb Fa Fb.
  destruct a as [sa| | |sa ma ea]; try contradiction; destruct b as [sb| | |sb mb eb]; try contradiction.
  - eexists; split; [reflexivity|]. constructor. reflexivity.
  - pose proof (pos_val_pos mb eb). eexists; split; [reflexivity|].
    destruct sb; cbn [val]; constructor; lra.
  - pose proof (pos_val_pos ma ea). eexists; split; [reflexivity|].
    destruct sa; cbn [val]; constructor; lra.
  - pose proof (pos_val_pos ma ea). pose proof (pos_val_pos mb eb).
    cbn [SFcompare]. eexists; split; [reflexivity|].
    destruct sa, sb; cbn [val]; try (constructor; lra).
    + assert (Va' : valid_binary (S754_finite false ma ea) = true) by exact Va.
      assert (Vb' : valid_binary (S754_finite false mb eb) = true) by exact Vb.
      pose proof (cmp_neg _ _ _ (cmp_pos ma ea mb eb Va' Vb')) as H1.
      destruct (ea ?= eb); exact H1.
    + apply cmp_pos; auto.
Qed.

Lemma ltb_val a b :
  valid_binary a = true -> valid_binary b = true -> finz a -> finz b ->
  (SFltb a b = true <-> (val a < val b)%R).
Proof.
  intros Va Vb Fa Fb. destruct (cmp_val a b Va Vb Fa Fb) as (c & E & H).
  unfold SFltb. rewrite E. destruct H; split; intros; try lra; congruence.
Qed.

Lemma leb_val a b :
  valid_binary a = true -> valid_binary b = true -> finz a -> finz b ->
  (SFleb a b = true <-> (val a <= val b)%R).
Proof.
  intros Va Vb Fa Fb. destruct (cmp_val a b Va Vb Fa Fb) as (c & E & H).
  unfold SFleb. rewrite E. destruct H; split; intros; try lra; congruence.
Qed.

Lemma canon_le s m1 e1 m2 e2 :
  valid_binary (S754_finite s m1 e1) = true -> valid_binary (S754_finite s m2 e2) = true ->
  e1 <= e2 -> (IZR (Zpos m1) * bpow e1)%R = (IZR (Zpos m2) * bpow e2)%R ->
  m1 = m2 /\ e1 = e2.
Proof.
  intros V1 V2 He Hv.
  destruct (valid_bounds _ _ _ V1) as (_ & _ & _ & C1).
  destruct (valid_bounds _ _ _ V2) as (_ & _ & _ & C2).
  replace e2 with (e1 + (e2 - e1)) in Hv by lia. rewrite shift_val in Hv by lia.
  assert (Hm : Zpos m1 = Zpos m2 * 2 ^ (e2 - e1)).
  { apply eq_IZR. apply Rmult_eq_reg_r with (bpow e1); [exact Hv|].
    pose proof (bpow_pos e1). lra. }
  pose proof (digits2_pos_spec m1) as D1. pose proof (digits2_pos_spec m2) as D2.
  assert (P : 0 < 2 ^ (e2 - e1)) by (apply Z.pow_pos_nonneg; lia).
  assert (Hd : Zpos (digits2_pos m1) = Zpos (digits2_pos m2) + (e2 - e1)).
  { apply (digits_unique (Zpos m1)); [exact D1| |lia|lia].
    rewrite Hm. replace (Zpos (digits2_pos m2) + (e2 - e1) - 1)
      with ((Zpos (digits2_pos m2) - 1) + (e2 - e1)) by lia.
    rewrite !Z.pow_add_r by lia. split; apply Z.mul_le_mono_pos_r || apply Z.mul_lt_mono_pos_r; lia. }
  assert (e1 = e2).
  { rewrite <- C1, <- C2, Hd. f_equal. lia. }
  subst e2. rewrite Z.sub_diag, Z.pow_0_r, Z.mul_1_r in Hm. injection Hm as ->. auto.
Qed.

Lemma canon_unique s m1 e1 m2 e2 :
  valid_binary (S754_finite s m1 e1) = true -> valid_binary (S754_finite s m2 e2) = true ->
  (IZR (Zpos m1) * bpow e1)%R = (IZR (Zpos m2) * bpow e2)%R ->
  S754_finite s m1 e1 = S754_finite s m2 e2.
Proof.
  intros V1 V2 Hv. destruct (Z_le_gt_dec e1 e2).
  - destruct (canon_le s m1 e1 m2 e2 V1 V2 l Hv) as [-> ->]. reflexivity.
  - destruct (canon_le s m2 e2 m1 e1 V2 V1 ltac:(lia) (eq_sym Hv)) as [-> ->]. reflexivity.
Qed.

(** ** Binary64 operations on [spec_float] *)

Lemma sub64 x y : Prim2SF (x - y)%float = SFsub 53 1024 (Prim2SF x) (Prim2SF y).
Proof. exact (sub_spec x y). Qed.

Lemma mul64 x y : Prim2SF (x * y)%float = SFmul 53 1024 (Prim2SF x) (Prim2SF y).
Proof. exact (mul_spec x y). Qed.

Lemma div64 x y : Prim2SF (x / y)%float = SFdiv 53 1024 (Prim2SF x) (Prim2SF y).
Proof. exact (div_spec x y). Qed.

Lemma IZR_cond_Zopp s z : IZR (cond_Zopp s z) = (if s then - IZR z else IZR z)%R.
Proof. destruct s; simpl; [apply opp_IZR | reflexivity]. Qed.

Lemma shl_align_min m e ez :
  ez <= e ->
  (IZR (Zpos (fst (shl_align m e ez))) * bpow ez)%R = (IZR (Zpos m) * bpow e)%R.
Proof.
  intros H. rewrite <- (shl_align_exp m e ez H) at 2. apply shl_align_val.
Qed.

Lemma sub_finite sa ma ea sb mb eb :
  exists N, SFsub 53 1024 (S754_finite sa ma ea) (S754_finite sb mb eb)
            = binary_normalize 53 1024 N (Z.min ea eb) false /\
            (IZR N * bpow (Z.min ea eb))%R
            = (val (S754_finite sa ma ea) - val (S754_finite sb mb eb))%R.
Proof.
  eexists; split; [reflexivity|].
  rewrite minus_IZR, Rmult_minus_distr_r, !IZR_cond_Zopp.
  pose proof (shl_align_min ma ea (Z.min ea eb) ltac:(lia)) as A.
  pose proof (shl_align_min mb eb (Z.min ea eb) ltac:(lia)) as B.
  cbn [val]. destruct sa, sb; lra.
Qed.

Lemma mul_finite sa ma ea sb mb eb :
  SFmul 53 1024 (S754_finite sa ma ea) (S754_finite sb mb eb)
  = binary_round_aux 53 1024 (xorb sa sb) (Zpos (ma * mb)) (ea + eb) loc_Exact /\
  (IZR (Zpos (ma * mb)) * bpow (ea + eb))%R
  = (IZR (Zpos ma) * bpow ea * (IZR (Zpos mb) * bpow eb))%R.
Proof.
  split; [reflexivity|]. rewrite Pos2Z.inj_mul, mult_IZR, bpow_plus. ring.
Qed.

Lemma new_location_cases nb r :
  (r = 0 /\ new_location nb r = loc_Exact) \/
  (r <> 0 /\ exists c, new_location nb r = loc_Inexact c).
Proof.
  unfold new_location, new_location_even, new_location_odd.
  destruct r as [|p|p]; [left | right | right]; (split; [congruence|]);
    destruct (Z.even nb); try reflexivity; eexists; reflexivity.
Qed.

Lemma div_core_ok mx ex my ey :
  let '(q, e', l) := SFdiv_core_binary 53 1024 (Zpos mx) ex (Zpos my) ey in
  0 <= q /\
  rec_ok (shr_record_of_loc q l) e'
    ((IZR (Zpos mx) * bpow ex) / (IZR (Zpos my) * bpow ey))%R /\
  (l = loc_Exact \/ e' <= fexp 53 1024 (Zdigits2 q + e')).
Proof.
  unfold SFdiv_core_binary.
  change (Zdigits2 (Zpos mx)) with (Zpos (digits2_pos mx)).
  change (Zdigits2 (Zpos my)) with (Zpos (digits2_pos my)).
  pose proof (digits2_pos_spec mx) as [Dx1 Dx2]. pose proof (digits2_pos_spec my) as [Dy1 Dy2].
  set (d1 := Zpos (digits2_pos mx)) in *. set (d2 := Zpos (digits2_pos my)) in *.
  set (D := d1 + ex - (d2 + ey)).
  set (e' := Z.min (fexp 53 1024 D) (ex - ey)).
  set (s := ex - ey - e').
  assert (Hs : 0 <= s) by lia.
  set (M := match s with Zpos _ => Z.shiftl (Zpos mx) s | Z0 => Zpos mx | Zneg _ => 0 end).
  assert (HM : M = Zpos mx * 2 ^ s).
  { unfold M. destruct s as [|p|p] eqn:Es; [lia | | lia].
    rewrite Z.shiftl_mul_pow2 by lia. reflexivity. }
  clearbody M.
  pose proof (Z_div_mod M (Zpos my) ltac:(lia)) as Hdm.
  destruct (Z.div_eucl M (Zpos my)) as [q r]. destruct Hdm as [Hqr Hr].
  assert (Hq : 0 <= q).
  { destruct (Z_lt_le_dec q 0); auto. exfalso.
    assert (0 <= M) by (rewrite HM; pose proof (Z.pow_pos_nonneg 2 s); lia). nia. }
  (* the value of the quotient *)
  assert (Hval : ((IZR (Zpos mx) * bpow ex) / (IZR (Zpos my) * bpow ey))%R
                 = ((IZR q + IZR r / IZR (Zpos my)) * bpow e')%R).
  { assert (E1 : bpow ex = (IZR (2 ^ s) * bpow e' * bpow ey)%R)
      by (rewrite <- bpow_Z, <- !bpow_plus by lia; f_equal; lia).
    rewrite E1. pose proof (bpow_pos ey). pose proof (bpow_pos e').
    assert (IZR (Zpos my) <> 0%R) by (apply not_0_IZR; lia).
    assert (IZR (Zpos mx) * IZR (2 ^ s) = IZR (Zpos my) * IZR q + IZR r)%R
      by (rewrite <- !mult_IZR, <- plus_IZR; f_equal; lia).
    field_simplify; [|lra|lra]. rewrite H2. field. lra. }
  split; [exact Hq|]. split.
  - destruct (new_location_cases (Zpos my) r) as [(-> & ->)|(Hr0 & c & ->)].
    + apply record_of_loc_ok; auto. rewrite Hval. unfold Rdiv. rewrite Rmult_0_l, Rplus_0_r. reflexivity.
    + apply record_of_loc_ok; auto. rewrite Hval.
      pose proof (bpow_pos e').
      assert (0 < IZR r / IZR (Zpos my) < 1)%R.
      { assert (0 < IZR (Zpos my))%R by (apply IZR_lt; lia).
        assert (0 < IZR r)%R by (apply IZR_lt; lia).
        assert (IZR r < IZR (Zpos my))%R by (apply IZR_lt; lia).
        split; [apply Rdiv_lt_0_compat; lra|].
        apply Rmult_lt_reg_r with (IZR (Zpos my)); [lra|]. unfold Rdiv.
        rewrite Rmult_assoc, Rinv_l by lra. lra. }
      rewrite plus_IZR. nra.
  - right. rewrite !fexp_eq.
    destruct (Z_le_gt_dec e' (-1074)) as [Hle|Hgt]; [lia|].
    assert (HD : e' <= D - 53) by (unfold e' in *; rewrite fexp_eq in *; lia).
    set (k := d1 - 1 + s - d2).
    assert (Hk : 52 <= k) by (unfold k, s, D in *; lia).
    assert (P1 : 2 ^ (d1 - 1 + s) = 2 ^ k * 2 ^ d2)
      by (rewrite <- Z.pow_add_r by lia; f_equal; unfold k; lia).
    assert (P2 : 2 ^ (d1 - 1 + s) <= M)
      by (rewrite HM, Z.pow_add_r by lia; apply Z.mul_le_mono_nonneg_r; [apply Z.pow_nonneg|]; lia).
    assert (P3 : 0 < 2 ^ k) by (apply Z.pow_pos_nonneg; lia).
    assert (P4 : 2 ^ k * Zpos my < 2 ^ k * 2 ^ d2) by (apply Z.mul_lt_mono_pos_l; lia).
    assert (P5 : Zpos my * 2 ^ k < Zpos my * (q + 1)) by lia.
    assert (P6 : 2 ^ k < q + 1) by (apply Z.mul_lt_mono_pos_l with (Zpos my); lia).
    destruct q as [|pq|pq]; [lia| |lia].
    change (Zdigits2 (Zpos pq)) with (Zpos (digits2_pos pq)).
    pose proof (digits2_pos_spec pq) as [Dq1 Dq2].
    assert (k < Zpos (digits2_pos pq)).
    { apply (Z.pow_lt_mono_r_iff 2); lia. }
    unfold k, s, D in *. lia.
Qed.

(** ** Lower bounds through products, quotients and [Math.round] *)

Lemma mul_atleast a y z mz ez F G :
  atleast a (Prim2SF y) -> Prim2SF z = S754_finite false mz ez ->
  0 < F < 2 ^ 53 -> -1074 <= G ->
  (IZR F * bpow G <= a * (IZR (Zpos mz) * bpow ez))%R ->
  atleast (IZR F * bpow G) (Prim2SF (y * z)%float).
Proof.
  intros Ha Hz HF HG Hx. rewrite mul64, Hz.
  destruct (Prim2SF y) as [[]|[]| |[] my ey]; cbn [atleast] in Ha; try contradiction.
  - exact I.
  - destruct (mul_finite false my ey false mz ez) as [-> Hv].
    apply (round_aux_lb _ _ _ (IZR (Zpos my) * bpow ey * (IZR (Zpos mz) * bpow ez))%R);
      [lia| |left; reflexivity|exact HF|exact HG|].
    + rewrite <- Hv. apply rec_exact. lia.
    + pose proof (pos_val_pos mz ez). nra.
Qed.

Lemma div_atleast a y z mz ez F G :
  atleast a (Prim2SF y) -> Prim2SF z = S754_finite false mz ez ->
  0 < F < 2 ^ 53 -> -1074 <= G ->
  (IZR F * bpow G <= a / (IZR (Zpos mz) * bpow ez))%R ->
  atleast (IZR F * bpow G) (Prim2SF (y / z)%float).
Proof.
  intros Ha Hz HF HG Hx. rewrite div64, Hz.
  destruct (Prim2SF y) as [[]|[]| |[] my ey]; cbn [atleast] in Ha; try contradiction.
  - exact I.
  - cbn [SFdiv]. pose proof (div_core_ok my ey mz ez) as H.
    destruct (SFdiv_core_binary 53 1024 (Zpos my) ey (Zpos mz) ez) as [[q e'] l].
    destruct H as (Hq & Hr & Hp).
    apply (round_aux_lb q e' l _ F G Hq Hr Hp HF HG).
    pose proof (pos_val_pos mz ez). unfold Rdiv in *.
    pose proof (Rinv_0_lt_compat _ H).
    apply Rle_trans with (1 := Hx). apply Rmult_le_compat_r; lra.
Qed.

Lemma bpow_0 : bpow 0 = 1%R.
Proof. reflexivity. Qed.

Lemma of_uint6364 n :
  Prim2SF (of_uint63 n) = binary_normalize 53 1024 (Uint63.to_Z n) 0 false.
Proof. exact (of_uint63_spec n). Qed.

Lemma to_Z_of_Z k : 0 <= k < 2 ^ 63 -> Uint63.to_Z (Uint63.of_Z k) = k.
Proof. intros H. rewrite Uint63.of_Z_spec. apply Z.mod_small. exact H. Qed.

Lemma of_uint63_val k :
  0 < k < 2 ^ 53 ->
  exists m e, Prim2SF (of_uint63 (Uint63.of_Z k)) = S754_finite false m e /\
              (IZR (Zpos m) * bpow e)%R = (IZR k * bpow 0)%R.
Proof.
  intros Hk. rewrite of_uint6364, to_Z_of_Z by lia.
  destruct (normalize_exact k 0 k 0 Hk ltac:(lia) ltac:(lia)) as (m & e & E & Hv).
  - rewrite Z.abs_eq by lia. reflexivity.
  - exists m, e. split; [|exact Hv]. rewrite E. f_equal. apply Z.ltb_ge. lia.
Qed.

(** The quotient computed by [JS.round] for a finite [x] with a negative
    exponent: [floor (m * 2^e + 1/2)]. *)
Lemma round_quot_bounds (M : Z) e :
  e < 0 ->
  let k := (M + 2 ^ (- e - 1)) / 2 ^ (- e) in
  (IZR k - / 2 <= IZR M * bpow e < IZR k + / 2)%R.
Proof.
  intros He k.
  assert (HP : 0 < 2 ^ (- e)) by (apply Z.pow_pos_nonneg; lia).
  assert (HH : 2 ^ (- e) = 2 * 2 ^ (- e - 1))
    by (rewrite <- Z.pow_succ_r by lia; f_equal; lia).
  pose proof (Z.mul_div_le (M + 2 ^ (- e - 1)) (2 ^ (- e)) HP) as L.
  pose proof (Z.mul_succ_div_gt (M + 2 ^ (- e - 1)) (2 ^ (- e)) HP) as U.
  fold k in L, U.
  assert (Eb : (bpow e * IZR (2 ^ (- e)))%R = 1%R)
    by (rewrite <- bpow_Z, <- bpow_plus by lia; rewrite Z.add_opp_diag_r; reflexivity).
  apply IZR_le in L. apply IZR_lt in U.
  rewrite mult_IZR, plus_IZR in L. rewrite mult_IZR, plus_IZR, succ_IZR in U.
  rewrite HH, mult_IZR in *.
  set (h := IZR (2 ^ (- e - 1))) in *.
  assert (0 < h)%R by (apply IZR_lt; apply Z.pow_pos_nonneg; lia).
  assert (Eb' : (bpow e = / (2 * h))%R).
  { apply Rmult_eq_reg_r with (2 * h)%R; [|lra]. rewrite Eb, Rinv_l by lra. reflexivity. }
  rewrite Eb'. split.
  - apply Rmult_le_reg_r with (2 * h)%R; [lra|].
    rewrite Rmult_assoc, Rinv_l by lra. nra.
  - apply Rmult_lt_reg_r with (2 * h)%R; [lra|].
    rewrite Rmult_assoc, Rinv_l by lra. nra.
Qed.

Lemma round_quot_range m e :
  Zpos m < 2 ^ 53 -> e < 0 ->
  forall s, let k := (cond_Zopp s (Zpos m) + 2 ^ (- e - 1)) / 2 ^ (- e) in
  - 2 ^ 52 <= k <= 2 ^ 52.
Proof.
  intros Hm He s k.
  assert (HP : 0 < 2 ^ (- e)) by (apply Z.pow_pos_nonneg; lia).
  assert (HH : 2 ^ (- e) = 2 * 2 ^ (- e - 1))
    by (rewrite <- Z.pow_succ_r by lia; f_equal; lia).
  assert (0 < 2 ^ (- e - 1)) by (apply Z.pow_pos_nonneg; lia).
  pose proof (Z.mul_div_le (cond_Zopp s (Zpos m) + 2 ^ (- e - 1)) (2 ^ (- e)) HP) as L.
  pose proof (Z.mul_succ_div_gt (cond_Zopp s (Zpos m) + 2 ^ (- e - 1)) (2 ^ (- e)) HP) as U.
  fold k in L, U.
  assert (- 2 ^ 53 < cond_Zopp s (Zpos m) < 2 ^ 53) by (destruct s; simpl; lia).
  split; nia.
Qed.

Lemma js_round_atleast w K :
  0 < K < 2 ^ 53 -> atleast (IZR K * bpow 0) (Prim2SF w) ->
  atleast (IZR K * bpow 0) (Prim2SF (JS.round w)).
Proof.
  intros HK Hw. pose proof (Prim2SF_valid w) as V. unfold JS.round.
  destruct (Prim2SF w) as [[]|[]| |[] m e] eqn:Ew; cbn [atleast] in Hw; try contradiction.
  - rewrite Ew. exact I.
  - destruct (0 <=? e) eqn:He; [rewrite Ew; exact Hw|]. apply Z.leb_gt in He.
    destruct (valid_bounds _ _ _ V) as (Hm & _).
    pose proof (round_quot_range m e Hm He false) as R. cbv zeta in R |- *. cbn [cond_Zopp] in R |- *.
    set (k := (Zpos m + 2 ^ (- e - 1)) / 2 ^ (- e)) in *.
    assert (HKm : K * 2 ^ (- e) <= Zpos m).
    { apply scale_le with e. rewrite <- shift_val by lia. rewrite Z.add_opp_diag_r. exact Hw. }
    assert (HKk : K <= k).
    { apply Z.div_le_lower_bound; [apply Z.pow_pos_nonneg; lia|].
      pose proof (Z.pow_nonneg 2 (- e - 1)). lia. }
    replace (k =? 0) with false by (symmetry; apply Z.eqb_neq; lia).
    replace (0 <? k) with true by (symmetry; apply Z.ltb_lt; lia).
    destruct (of_uint63_val k) as (m' & e' & E & Hv); [lia|].
    rewrite E. cbn [atleast]. rewrite Hv. apply scale_le_intro. exact HKk.
Qed.

Lemma js_round_nearest w s m e :
  Prim2SF w = S754_finite s m e -> e < 0 ->
  exists k, val (Prim2SF (JS.round w)) = IZR k /\
            (IZR k - / 2 <= val (Prim2SF w) < IZR k + / 2)%R.
Proof.
  intros Ew He. pose proof (Prim2SF_valid w) as V. rewrite Ew in V.
  destruct (valid_bounds _ _ _ V) as (Hm & _).
  pose proof (round_quot_range m e Hm He s) as R. cbv zeta in R.
  pose proof (round_quot_bounds (cond_Zopp s (Zpos m)) e He) as B. cbv zeta in B.
  set (k := (cond_Zopp s (Zpos m) + 2 ^ (- e - 1)) / 2 ^ (- e)) in *.
  exists k. split.
  - unfold JS.round. rewrite Ew.
    replace (0 <=? e) with false by (symmetry; apply Z.leb_gt; lia). cbv zeta. fold k.
    destruct (k =? 0) eqn:Ek.
    + apply Z.eqb_eq in Ek. rewrite Ek. destruct s; reflexivity.
    + apply Z.eqb_neq in Ek. destruct (0 <? k) eqn:Hk.
      * apply Z.ltb_lt in Hk. destruct (of_uint63_val k) as (m' & e' & E & Hv); [lia|].
        rewrite E. cbn [val]. rewrite Hv, bpow_0, Rmult_1_r. reflexivity.
      * apply Z.ltb_ge in Hk. rewrite opp_spec.
        destruct (of_uint63_val (- k)) as (m' & e' & E & Hv); [lia|].
        rewrite E. cbn [SFopp val negb]. rewrite Hv, bpow_0, Rmult_1_r, opp_IZR. ring.
  - rewrite Ew. cbn [val]. rewrite IZR_cond_Zopp in B. destruct s; lra.
Qed.

(** ** Constants and comparisons with them *)

Lemma cmp_scaled a b c d : b <= d -> a <= c * 2 ^ (d - b) ->
  (IZR a * bpow b <= IZR c * bpow d)%R.
Proof.
  intros H1 H2. replace d with (b + (d - b)) by lia. rewrite shift_val by lia.
  apply scale_le_intro. exact H2.
Qed.

Lemma cmp_scaled' a b c d : d <= b -> a * 2 ^ (b - d) <= c ->
  (IZR a * bpow b <= IZR c * bpow d)%R.
Proof.
  intros H1 H2. replace b with (d + (b - d)) by lia. rewrite shift_val by lia.
  apply scale_le_intro. exact H2.
Qed.

Lemma prod_val a b c d :
  (IZR a * bpow b * (IZR c * bpow d))%R = (IZR (a * c) * bpow (b + d))%R.
Proof. rewrite mult_IZR, bpow_plus. ring. Qed.

Lemma atleast_weaken a a' f : (a' <= a)%R -> atleast a f -> atleast a' f.
Proof. destruct f as [|[]| |[] m e]; cbn [atleast]; auto; lra. Qed.

Lemma leb_atleast mc ec r a :
  valid_binary (S754_finite false mc ec) = true -> valid_binary r = true ->
  atleast a r -> (IZR (Zpos mc) * bpow ec <= a)%R ->
  SFleb (S754_finite false mc ec) r = true.
Proof.
  intros Vc Vr H Ha. destruct r as [|[]| |[] m e]; cbn [atleast] in H; try contradiction.
  - reflexivity.
  - apply leb_val; auto; try exact I. cbn [val]. lra.
Qed.

Lemma ltb_atleast mc ec r a :
  valid_binary (S754_finite false mc ec) = true -> valid_binary r = true ->
  atleast a r -> (IZR (Zpos mc) * bpow ec < a)%R ->
  SFltb (S754_finite false mc ec) r = true.
Proof.
  intros Vc Vr H Ha. destruct r as [|[]| |[] m e]; cbn [atleast] in H; try contradiction.
  - reflexivity.
  - apply ltb_val; auto; try exact I. cbn [val]. lra.
Qed.

Lemma ltb_atmost mc ec r a :
  valid_binary (S754_finite false mc ec) = true -> valid_binary r = true ->
  atmost a r -> (a <= IZR (Zpos mc) * bpow ec)%R ->
  SFltb (S754_finite false mc ec) r = false.
Proof.
  intros Vc Vr H Ha. destruct r as [|[]| |[] m e]; cbn [atmost] in H; try contradiction;
    try reflexivity.
  destruct (SFltb _ _) eqn:E; auto. apply ltb_val in E; auto; try exact I. cbn [val] in E. lra.
Qed.

Lemma bpow_m1 : bpow (-1) = (/ 2)%R.
Proof.
  assert (H : (bpow (-1) * bpow 1)%R = 1%R) by (rewrite <- bpow_plus; reflexivity).
  rewrite bpow_1 in H. lra.
Qed.

Lemma half_sf : Prim2SF 0.5 = S754_finite false 4503599627370496 (-53).
Proof. reflexivity. Qed.

Lemma one_sf : Prim2SF 1 = S754_finite false 4503599627370496 (-52).
Proof. reflexivity. Qed.

Lemma hundred_sf : Prim2SF 100 = S754_finite false 7036874417766400 (-46).
Proof. reflexivity. Qed.

Lemma fifty_sf : Prim2SF 50 = S754_finite false 7036874417766400 (-47).
Proof. reflexivity. Qed.

Lemma two53_sf : Prim2SF 0x1p53 = S754_finite false 4503599627370496 1.
Proof. reflexivity. Qed.

Lemma one_val : (IZR (Zpos 4503599627370496) * bpow (-52))%R = 1%R.
Proof.
  replace (Zpos 4503599627370496) with (1 * 2 ^ 52) by reflexivity.
  rewrite <- shift_val by lia. rewrite Rmult_1_l. reflexivity.
Qed.

Lemma is_nan_not x : PrimFloat.is_nan x = false -> Prim2SF x <> S754_nan.
Proof.
  unfold PrimFloat.is_nan. rewrite eqb_spec. intros H E. rewrite E in H. discriminate.
Qed.

Lemma not_nan_is_nan x : Prim2SF x <> S754_nan -> PrimFloat.is_nan x = false.
Proof.
  unfold PrimFloat.is_nan. rewrite eqb_spec. intros H.
  destruct (Prim2SF x) as [[]|[]| |s m e]; try reflexivity; [congruence|].
  unfold SFeqb, SFcompare. rewrite Z.compare_refl.
  change (Pos.compare_cont Eq m m) with (Pos.compare m m). rewrite Pos.compare_refl.
  destruct s; reflexivity.
Qed.

(** ** [1 - x] *)

Lemma sub_one_atleast x F G :
  0 < F < 2 ^ 53 -> -1074 <= G -> (IZR F * bpow G <= 1)%R ->
  (forall m e, Prim2SF x = S754_finite false m e ->
     (IZR F * bpow G <= 1 - IZR (Zpos m) * bpow e)%R) ->
  Prim2SF x <> S754_nan -> Prim2SF x <> S754_infinity false ->
  atleast (IZR F * bpow G) (Prim2SF (1 - x)%float).
Proof.
  intros HF HG H1 Hx Hn Hi. rewrite sub64, one_sf.
  destruct (Prim2SF x) as [b|[]| |[] m e]; try congruence.
  - cbn [SFsub atleast]. rewrite one_val. exact H1.
  - exact I.
  - destruct (sub_finite false 4503599627370496 (-52) true m e) as (N & -> & Hv).
    apply normalize_lb; auto. rewrite Hv. cbn [val]. rewrite one_val.
    pose proof (pos_val_pos m e). lra.
  - destruct (sub_finite false 4503599627370496 (-52) false m e) as (N & -> & Hv).
    apply normalize_lb; auto. rewrite Hv. cbn [val]. rewrite one_val. apply Hx. reflexivity.
Qed.

(** For [x > 0.5], the complement [1 - x] is not above 0.5. *)
Lemma sub_one_not_gt x : (0.5 <? x)%float = true -> (0.5 <? 1 - x)%float = false.
Proof.
  intros H. rewrite ltb_spec in H |- *. rewrite half_sf in *.
  pose proof (Prim2SF_valid (1 - x)) as V1. pose proof (Prim2SF_valid x) as Vx.
  rewrite sub64 in *. rewrite one_sf in *.
  destruct (Prim2SF x) as [b|[]| |[] m e]; try (vm_compute in H; discriminate); try reflexivity.
  destruct (sub_finite false 4503599627370496 (-52) false m e) as (N & EN & Hv).
  rewrite EN in *.
  apply ltb_val in H; [| reflexivity | exact Vx | exact I | exact I]. cbn [val] in H.
  apply (ltb_atmost _ _ _ (IZR 1 * bpow (-1))); auto.
  - apply normalize_ub; try lia. rewrite Hv. cbn [val]. rewrite one_val.
    assert (E : (IZR (Zpos 4503599627370496) * bpow (-53))%R = (IZR 1 * bpow (-1))%R)
      by (replace (Zpos 4503599627370496) with (1 * 2 ^ 52) by reflexivity;
          rewrite <- shift_val by lia; reflexivity).
    rewrite bpow_m1 in *. lra.
  - apply cmp_scaled'; [lia|]. apply Z.leb_le. vm_compute. reflexivity.
Qed.

Lemma half_val : (IZR (Zpos 4503599627370496) * bpow (-53))%R = (IZR 1 * bpow (-1))%R.
Proof.
  replace (Zpos 4503599627370496) with (1 * 2 ^ 52) by reflexivity.
  rewrite <- shift_val by lia. reflexivity.
Qed.

Lemma two53_val : (IZR (2 ^ 53) * bpow (-53))%R = 1%R.
Proof.
  replace (2 ^ 53) with (1 * 2 ^ 53) by reflexivity.
  rewrite <- shift_val by lia. rewrite Rmult_1_l. reflexivity.
Qed.

Lemma normalize_not_nan N e : binary_normalize 53 1024 N e false <> S754_nan.
Proof.
  destruct N as [|p|p]; simpl binary_normalize; [discriminate| |rewrite round_opp];
    pose proof (round_nonneg p e) as H;
    destruct (binary_round 53 1024 false p e) as [[]|[]| |[] m e']; try contradiction; discriminate.
Qed.

Lemma sub_one_not_nan x : Prim2SF x <> S754_nan -> Prim2SF (1 - x)%float <> S754_nan.
Proof.
  intros H. rewrite sub64, one_sf.
  destruct (Prim2SF x) as [b|[]| |sx m e]; try congruence; try discriminate.
  destruct (sub_finite false 4503599627370496 (-52) sx m e) as (N & -> & _).
  apply normalize_not_nan.
Qed.

Lemma leb_not_nan x y : (x <=? y)%float = true -> Prim2SF x <> S754_nan.
Proof. rewrite leb_spec. intros H E. rewrite E in H. discriminate. Qed.

(** The grid of binary64 values just below 0.5. *)
Lemma below_half m e :
  valid_binary (S754_finite false m e) = true ->
  (IZR (Zpos m) * bpow e < IZR 1 * bpow (-1))%R ->
  S754_finite false m e <> S754_finite false 9007199254740991 (-54) ->
  (IZR (Zpos m) * bpow e <= IZR (2 ^ 52 - 1) * bpow (-53))%R.
Proof.
  intros V H Hne. destruct (valid_bounds _ _ _ V) as (Hm & He & Hn & _).
  destruct (Z_lt_le_dec e (-54)) as [Hlt|Hge].
  - pose proof (bpow_53_lt (Zpos m) e ltac:(lia)).
    pose proof (bpow_le (53 + e) (-2) ltac:(lia)).
    assert ((bpow (-2) <= IZR (2 ^ 52 - 1) * bpow (-53))%R).
    { rewrite <- (Rmult_1_l (bpow (-2))). apply cmp_scaled'; [lia|]. apply Z.leb_le. reflexivity. }
    lra.
  - destruct (Z.eq_dec e (-54)) as [E|E].
    + subst e. assert (Zpos m <> 9007199254740991) by (intros Em; injection Em as ->; auto).
      apply cmp_scaled; [lia|]. change (-53 - -54) with 1. lia.
    + destruct Hn as [Hn|Hn]; [lia|]. exfalso.
      pose proof (big_ge _ e Hn). pose proof (bpow_le (-1) (52 + e) ltac:(lia)).
      rewrite Rmult_1_l in H. lra.
Qed.

Lemma sub_one_gt_half x :
  (0.5 <? x)%float = false -> x <> 0.5%float -> x <> 0x1.fffffffffffffp-2%float ->
  Prim2SF x <> S754_nan -> (0.5 <? 1 - x)%float = true.
Proof.
  intros H Hne Hnp Hn. rewrite ltb_spec, half_sf. rewrite ltb_spec, half_sf in H.
  apply (ltb_atleast _ _ _ (IZR (2 ^ 52 + 1) * bpow (-53))); [reflexivity | apply Prim2SF_valid | |].
  - apply sub_one_atleast; [lia | lia | | | exact Hn | ].
    + rewrite <- two53_val. apply scale_le_intro. apply Z.leb_le. reflexivity.
    + intros m e Ex. pose proof (Prim2SF_valid x) as Vx. rewrite Ex in H, Vx.
      assert (Hle : ~ (IZR 1 * bpow (-1) < IZR (Zpos m) * bpow e)%R).
      { rewrite <- half_val. intros Hlt.
        apply (ltb_val (S754_finite false 4503599627370496 (-53)) (S754_finite false m e))
          in Hlt; [congruence | reflexivity | exact Vx | exact I | exact I]. }
      assert (Hne' : (IZR (Zpos m) * bpow e <> IZR 1 * bpow (-1))%R).
      { rewrite <- half_val. intros Hv. apply Hne. apply Prim2SF_inj. rewrite Ex, half_sf.
        apply canon_unique; [exact Vx | reflexivity | exact Hv]. }
      assert (Hb : (IZR (Zpos m) * bpow e <= IZR (2 ^ 52 - 1) * bpow (-53))%R).
      { apply below_half; [exact Vx | lra |].
        intros Ep. apply Hnp. apply Prim2SF_inj. rewrite Ex, Ep. reflexivity. }
      assert (Es : (IZR (2 ^ 52 + 1) * bpow (-53) + IZR (2 ^ 52 - 1) * bpow (-53))%R = 1%R).
      { rewrite <- Rmult_plus_distr_r, <- plus_IZR, <- two53_val. reflexivity. }
      lra.
    + intros Ei. rewrite Ei in H. discriminate.
  - apply scale_lt_intro. apply Z.ltb_lt. reflexivity.
Qed.

Lemma div_le_intro x a v : (0 < v)%R -> (x * v <= a)%R -> (x <= a / v)%R.
Proof.
  intros Hv H. apply (Rmult_le_reg_r v); [exact Hv|].
  unfold Rdiv. rewrite Rmult_assoc, Rinv_l, Rmult_1_r by lra. exact H.
Qed.

(** A score of at least one half gives a rounded percentage of at least 50. *)
Lemma conf_ge_50 f :
  atleast (IZR 1 * bpow (-1)) (Prim2SF f) ->
  (50 <=? JS.round (f * 100 * 100) / 100)%float = true.
Proof.
  intros Hf.
  assert (A1 : atleast (IZR 25 * bpow 1) (Prim2SF (f * 100)%float)).
  { apply (mul_atleast _ f 100 _ _ 25 1 Hf hundred_sf); [lia|lia|].
    rewrite prod_val. apply cmp_scaled'; [lia|]. apply Z.leb_le. vm_compute. reflexivity. }
  assert (A2 : atleast (IZR 625 * bpow 3) (Prim2SF (f * 100 * 100)%float)).
  { apply (mul_atleast _ (f * 100)%float 100 _ _ 625 3 A1 hundred_sf); [lia|lia|].
    rewrite prod_val. apply cmp_scaled'; [lia|]. apply Z.leb_le. vm_compute. reflexivity. }
  assert (A3 : atleast (IZR 5000 * bpow 0) (Prim2SF (JS.round (f * 100 * 100)))).
  { apply js_round_atleast; [lia|]. refine (atleast_weaken _ _ _ _ A2).
    apply cmp_scaled; [lia|]. apply Z.leb_le. vm_compute. reflexivity. }
  assert (A4 : atleast (IZR 25 * bpow 1) (Prim2SF (JS.round (f * 100 * 100) / 100)%float)).
  { apply (div_atleast _ _ 100 _ _ 25 1 A3 hundred_sf); [lia|lia|].
    apply div_le_intro; [apply pos_val_pos|].
    rewrite prod_val. apply cmp_scaled; [lia|]. apply Z.leb_le. vm_compute. reflexivity. }
  rewrite leb_spec, fifty_sf.
  apply (leb_atleast _ _ _ (IZR 25 * bpow 1)); [reflexivity | apply Prim2SF_valid | exact A4 |].
  apply cmp_scaled; [lia|]. apply Z.leb_le. vm_compute. reflexivity.
Qed.

Lemma final_atleast s :
  Prim2SF s <> S754_nan ->
  atleast (IZR 1 * bpow (-1)) (Prim2SF (Interp.finalConfidence s)).
Proof.
  intros Hn. unfold Interp.finalConfidence, Interp.isMalignant.
  destruct (0.5 <? s)%float eqn:H; rewrite ltb_spec, half_sf in H.
  - pose proof (Prim2SF_valid s) as Vs.
    destruct (Prim2SF s) as [b|[]| |[] m e]; try (vm_compute in H; discriminate);
      cbn [atleast]; [exact I|].
    apply ltb_val in H; [|reflexivity|exact Vs|exact I|exact I].
    cbn [val] in H. rewrite <- half_val. lra.
  - apply sub_one_atleast; [lia | lia | | | exact Hn | ].
    + rewrite bpow_m1. lra.
    + intros m e Ex. pose proof (Prim2SF_valid s) as Vs. rewrite Ex in H, Vs.
      assert (Hle : ~ (IZR 1 * bpow (-1) < IZR (Zpos m) * bpow e)%R).
      { rewrite <- half_val. intros Hlt.
        apply (ltb_val (S754_finite false 4503599627370496 (-53)) (S754_finite false m e))
          in Hlt; [congruence | reflexivity | exact Vs | exact I | exact I]. }
      rewrite bpow_m1 in *. lra.
    + intros Ei. rewrite Ei in H. discriminate.
Qed.

Lemma normalize_exact_val N e D G :
  (IZR N * bpow e)%R = (IZR D * bpow G)%R -> D <> 0 -> -2 ^ 53 < D < 2 ^ 53 ->
  -1074 <= G -> G + 53 <= 971 ->
  exists s m e', binary_normalize 53 1024 N e false = S754_finite s m e' /\
                 val (S754_finite s m e') = (IZR N * bpow e)%R.
Proof.
  intros H HD HDb HG HG2.
  assert (Ha : (IZR (Z.abs N) * bpow e)%R = (IZR (Z.abs D) * bpow G)%R).
  { rewrite !abs_IZR. pose proof (bpow_pos e). pose proof (bpow_pos G).
    rewrite <- (Rabs_pos_eq (bpow e)), <- (Rabs_pos_eq (bpow G)) by lra.
    rewrite <- !Rabs_mult, H. reflexivity. }
  destruct (normalize_exact N e (Z.abs D) G) as (m & e' & E & Hv); [lia|lia|lia|exact Ha|].
  exists (N <? 0), m, e'. split; [exact E|]. rewrite <- Ha in Hv. cbn [val].
  destruct (N <? 0) eqn:Hs.
  - apply Z.ltb_lt in Hs. rewrite Z.abs_neq, opp_IZR in Hv by lia. lra.
  - apply Z.ltb_ge in Hs. rewrite Z.abs_eq in Hv by lia. exact Hv.
Qed.

Lemma two53_half : (IZR (Zpos 4503599627370496) * bpow 1)%R = bpow 53.
Proof. replace 53 with (52 + 1) by lia. rewrite bpow_plus, (bpow_Z 52) by lia. reflexivity. Qed.

(** Above one half and up to 2^53, [1 - (1 - x)] gives [x] back. *)
Lemma sub_sub_exact x :
  (0.5 <? x)%float = true -> (x <=? 0x1p53)%float = true -> (1 - (1 - x))%float = x.
Proof.
  intros H1 H2. pose proof (Prim2SF_valid (1 - (1 - x))%float) as Vz.
  pose proof (Prim2SF_valid x) as Vx.
  apply Prim2SF_inj. rewrite !sub64 in *. rewrite one_sf in *.
  rewrite ltb_spec, half_sf in H1. rewrite leb_spec, two53_sf in H2.
  destruct (Prim2SF x) as [b|[]| |[] m e] eqn:Ex;
    try (vm_compute in H1; discriminate).
  apply ltb_val in H1; [|reflexivity|exact Vx|exact I|exact I].
  apply leb_val in H2; [|exact Vx|reflexivity|exact I|exact I].
  cbn [val] in H1, H2. rewrite half_val, Rmult_1_l in H1.
  destruct (valid_bounds _ _ _ Vx) as (Hm & He & Hn & _).
  assert (Ee1 : -53 <= e).
  { destruct (Z_lt_le_dec e (-53)) as [Hlt|]; [exfalso|lia].
    pose proof (bpow_53_lt (Zpos m) e ltac:(lia)).
    pose proof (bpow_le (53 + e) (-1) ltac:(lia)). lra. }
  assert (Hm2 : 2 ^ 52 <= Zpos m) by (destruct Hn; lia).
  assert (Ee2 : e <= 1).
  { destruct (Z_le_gt_dec e 1) as [|Hgt]; [lia|exfalso].
    pose proof (big_ge _ e Hm2). pose proof (bpow_lt 53 (52 + e) ltac:(lia)).
    rewrite two53_half in H2. lra. }
  assert (HD : exists D G, (IZR D * bpow G)%R = (1 - IZR (Zpos m) * bpow e)%R /\
                           -2 ^ 53 < D < 2 ^ 53 /\ -1074 <= G <= 1).
  { destruct (Z_le_gt_dec e 0).
    - exists (2 ^ (- e) - Zpos m), e. split; [|split; [|lia]].
      + rewrite minus_IZR, Rmult_minus_distr_r, <- (bpow_Z (- e)) by lia.
        rewrite <- bpow_plus. replace (- e + e) with 0 by lia. reflexivity.
      + assert (0 < 2 ^ (- e) <= 2 ^ 53)
          by (split; [apply Z.pow_pos_nonneg | apply Z.pow_le_mono_r]; lia).
        lia.
    - assert (e = 1) by lia. subst e.
      assert (Zpos m <= 2 ^ 52) by (apply (scale_le _ _ 1); exact H2).
      exists (1 - 2 ^ 53), 0. split; [|split; [vm_compute; split; reflexivity | lia]].
      replace (Zpos m) with (2 ^ 52) by lia.
      assert (E53 : IZR (2 ^ 53) = (IZR (2 ^ 52) * 2)%R) by (rewrite <- mult_IZR; reflexivity).
      rewrite minus_IZR, bpow_0, bpow_1, E53. lra. }
  destruct HD as (D & G & HDv & HDb & HG).
  destruct (sub_finite false 4503599627370496 (-52) false m e) as (N & EN & HN).
  rewrite EN in *. cbn [val] in HN. rewrite one_val in HN.
  destruct (Z.eq_dec D 0) as [HD0|HD0].
  - subst D. change (IZR 0) with 0%R in HDv. rewrite Rmult_0_l in HDv.
    assert (N = 0).
    { assert (Hz : (IZR N * bpow (Z.min (-52) e))%R = 0%R) by lra.
      apply Rmult_integral in Hz. destruct Hz as [Hz|Hz]; [apply eq_IZR_R0; exact Hz|].
      pose proof (bpow_pos (Z.min (-52) e)). lra. }
    subst N. simpl binary_normalize in *.
    transitivity (S754_finite false 4503599627370496 (-52)); [reflexivity|].
    apply canon_unique; [reflexivity|exact Vx|]. rewrite one_val. lra.
  - destruct (normalize_exact_val N (Z.min (-52) e) D G) as (sy & my & ey & Ey & Hy);
      [rewrite HN, HDv; reflexivity | exact HD0 | lia | lia | lia |].
    rewrite Ey in *.
    destruct (sub_finite false 4503599627370496 (-52) sy my ey) as (N2 & EN2 & HN2).
    rewrite EN2 in *. rewrite Hy in HN2. cbn [val] in HN2. rewrite one_val in HN2.
    assert (HN2p : 0 < N2).
    { destruct (Z_lt_le_dec 0 N2) as [|Hle]; [assumption|exfalso].
      apply IZR_le in Hle. pose proof (bpow_pos (Z.min (-52) ey)).
      pose proof (pos_val_pos m e). nra. }
    destruct (normalize_exact N2 (Z.min (-52) ey) (Zpos m) e) as (m2 & e2 & E2 & Hv2);
      [lia | lia | lia | rewrite Z.abs_eq by lia; lra |].
    rewrite E2 in *. replace (N2 <? 0) with false in * by (symmetry; apply Z.ltb_ge; lia).
    apply canon_unique; [exact Vz | exact Vx | exact Hv2].
Qed.

Lemma order_split a b :
  Prim2SF a <> S754_nan -> (0.5 <? a)%float = false -> (0.5 <? b)%float = true ->
  (a <? b)%float = true /\ (b <? a)%float = false.
Proof.
  intros Hn Ha Hb. rewrite !ltb_spec in *. rewrite half_sf in Ha, Hb.
  pose proof (Prim2SF_valid a) as Va. pose proof (Prim2SF_valid b) as Vb.
  destruct (Prim2SF b) as [bb|[]| |[] mb eb]; try (vm_compute in Hb; discriminate);
    destruct (Prim2SF a) as [ba|[]| |[] ma ea]; try congruence;
    try (vm_compute in Ha; discriminate); try (split; reflexivity).
  assert (Ha' : ~ (val (S754_finite false 4503599627370496 (-53)) < val (S754_finite false ma ea))%R).
  { intros Hlt. apply ltb_val in Hlt; [congruence|reflexivity|exact Va|exact I|exact I]. }
  apply ltb_val in Hb; [|reflexivity|exact Vb|exact I|exact I].
  assert (Hlt : (val (S754_finite false ma ea) < val (S754_finite false mb eb))%R) by lra.
  split.
  - apply ltb_val; [exact Va|exact Vb|exact I|exact I|exact Hlt].
  - destruct (SFltb (S754_finite false mb eb) (S754_finite false ma ea)) eqn:E; [|reflexivity].
    apply ltb_val in E; [lra|exact Vb|exact Va|exact I|exact I].
Qed.

Lemma order_eq a b :
  Prim2SF a <> S754_nan -> (0.5 <? a)%float = false ->
  atleast (IZR 1 * bpow (-1)) (Prim2SF b) -> (a <? b)%float = false -> a = 0.5%float.
Proof.
  intros Hn Ha Hb Hab. apply Prim2SF_inj. rewrite half_sf. rewrite !ltb_spec in *.
  rewrite half_sf in Ha.
  pose proof (Prim2SF_valid a) as Va. pose proof (Prim2SF_valid b) as Vb.
  destruct (Prim2SF b) as [bb|[]| |[] mb eb]; cbn [atleast] in Hb; try contradiction;
    destruct (Prim2SF a) as [ba|[]| |[] ma ea]; try congruence;
    try (vm_compute in Ha; discriminate); try (simpl in Hab; discriminate).
  assert (Ha' : ~ (val (S754_finite false 4503599627370496 (-53)) < val (S754_finite false ma ea))%R).
  { intros Hlt. apply ltb_val in Hlt; [congruence|reflexivity|exact Va|exact I|exact I]. }
  assert (Hge : ~ (val (S754_finite false ma ea) < val (S754_finite false mb eb))%R).
  { intros Hlt. apply ltb_val in Hlt; [congruence|exact Va|exact Vb|exact I|exact I]. }
  cbn [val] in *. rewrite half_val in Ha'.
  apply canon_unique; [exact Va|reflexivity|]. rewrite half_val. lra.
Qed.

(** [finalConfidence s] is [Math.max(s, 1 - s)]. *)
Lemma final_is_max s : Interp.finalConfidence s = JS.max s (1 - s).
Proof.
  unfold Interp.finalConfidence, Interp.isMalignant, JS.max.
  destruct (PrimFloat.is_nan s) eqn:Hs.
  - assert (Prim2SF s = S754_nan).
    { unfold PrimFloat.is_nan in Hs. rewrite eqb_spec in Hs.
      destruct (Prim2SF s) as [[]|[]| |[] m e]; try reflexivity; try discriminate;
        unfold SFeqb, SFcompare in Hs; rewrite Z.compare_refl in Hs;
        change (Pos.compare_cont Eq m m) with (Pos.compare m m) in Hs;
        rewrite Pos.compare_refl in Hs; discriminate. }
    assert (Hlt : (0.5 <? s)%float = false) by (rewrite ltb_spec, H; reflexivity).
    rewrite Hlt. cbn [orb]. apply Prim2SF_inj. rewrite sub64, H.
    destruct (Prim2SF 1); reflexivity.
  - assert (Hn : Prim2SF s <> S754_nan) by (apply is_nan_not; exact Hs).
    rewrite (not_nan_is_nan _ (sub_one_not_nan s Hn)). cbn [orb].
    destruct (0.5 <? s)%float eqn:H.
    + destruct (order_split (1 - s)%float s (sub_one_not_nan s Hn) (sub_one_not_gt s H) H)
        as [E1 E2].
      rewrite E2, E1. reflexivity.
    + destruct (s <? 1 - s)%float eqn:E; [reflexivity|].
      pose proof (final_atleast s Hn) as Hf. unfold Interp.finalConfidence, Interp.isMalignant in Hf.
      rewrite H in Hf. rewrite (order_eq s (1 - s)%float Hn H Hf E). vm_compute. reflexivity.
Qed.


Lemma ge_50_not_neg c : (50 <=? c)%float = true -> (c <? 0)%float = false.
Proof.
  rewrite leb_spec, ltb_spec, fifty_sf. change (Prim2SF 0) with (S754_zero false).
  intros H. destruct (Prim2SF c) as [[]|[]| |[] m e]; try reflexivity; discriminate.
Qed.

End FloatFacts.

(** ** Binary32 scores widened to binary64, and [1 - x] on large scores *)

Module WidenFacts.
Import FloatVal FloatFacts F32 Interp.

Lemma iter_pos_nat {A} (f : A -> A) p x :
  SpecFloat.iter_pos f p x = Nat.iter (Pos.to_nat p) f x.
Proof.
  revert x. induction p as [p IH|p IH|]; intros x; cbn [SpecFloat.iter_pos].
  - rewrite IH, IH, Pos2Nat.inj_xI, <- Nat.iter_add, Nat.iter_succ_r.
    f_equal. lia.
  - rewrite IH, IH, Pos2Nat.inj_xO, <- Nat.iter_add. f_equal. lia.
  - reflexivity.
Qed.

Lemma shr_1_spec m r s :
  0 <= m ->
  shr_1 {| shr_m := m; shr_r := r; shr_s := s |} =
  {| shr_m := m / 2; shr_r := Z.odd m; shr_s := r || s |}.
Proof.
  intros H. rewrite <- Z.div2_div.
  destruct m as [|[p|p|]|p]; try lia; reflexivity.
Qed.

Lemma mod_mul_pos a b c :
  0 < b -> 0 < c -> a mod (b * c) = a mod b + b * ((a / b) mod c).
Proof.
  intros Hb Hc. rewrite !Z.mod_eq by lia. rewrite <- Z.div_div by lia. ring.
Qed.

Lemma iter_shr n M :
  0 <= M ->
  Nat.iter n shr_1 {| shr_m := M; shr_r := false; shr_s := false |} =
  {| shr_m := M / 2 ^ Z.of_nat n;
     shr_r := match n with O => false | S n' => Z.odd (M / 2 ^ Z.of_nat n') end;
     shr_s := match n with O => false | S n' => negb (M mod 2 ^ Z.of_nat n' =? 0) end |}.
Proof.
  intros HM. induction n as [|n IH].
  - cbn. rewrite Z.div_1_r. reflexivity.
  - rewrite Nat.iter_succ, IH.
    assert (P : 0 < 2 ^ Z.of_nat n) by (apply Z.pow_pos_nonneg; lia).
    rewrite shr_1_spec by (apply Z.div_pos; lia).
    assert (E : 2 ^ Z.of_nat (S n) = 2 ^ Z.of_nat n * 2)
      by (rewrite Nat2Z.inj_succ, Z.pow_succ_r by lia; ring).
    rewrite E, <- Z.div_div by lia. f_equal.
    destruct n as [|n].
    + cbn. rewrite Z.mod_1_r. reflexivity.
    + assert (R : 2 ^ Z.of_nat (S n) = 2 ^ Z.of_nat n * 2)
        by (rewrite Nat2Z.inj_succ, Z.pow_succ_r by lia; ring).
      rewrite R, (mod_mul_pos M (2 ^ Z.of_nat n) 2) by lia.
      assert (P' : 0 < 2 ^ Z.of_nat n) by (apply Z.pow_pos_nonneg; lia).
      pose proof (Z.mod_pos_bound M (2 ^ Z.of_nat n) P') as B3.
      pose proof (Z.mod_pos_bound (M / 2 ^ Z.of_nat n) 2 ltac:(lia)) as B4.
      rewrite Zodd_mod.
      destruct (Z.eqb_spec ((M / 2 ^ Z.of_nat n) mod 2) 1) as [H1|H1];
        destruct (Z.eqb_spec (M mod 2 ^ Z.of_nat n) 0) as [H2|H2];
        destruct (Z.eqb_spec (M mod 2 ^ Z.of_nat n + 2 ^ Z.of_nat n * ((M / 2 ^ Z.of_nat n) mod 2)) 0)
          as [H3|H3]; cbn; try reflexivity; nia.
Qed.

Lemma round_shift M k :
  0 <= M -> 0 < k ->
  shr_m (Nat.iter (Z.to_nat k) shr_1 {| shr_m := M; shr_r := false; shr_s := false |})
    = M / 2 ^ k /\
  round_nearest_even
    (shr_m (Nat.iter (Z.to_nat k) shr_1 {| shr_m := M; shr_r := false; shr_s := false |}))
    (loc_of_shr_record (Nat.iter (Z.to_nat k) shr_1 {| shr_m := M; shr_r := false; shr_s := false |}))
  = rne_div M k.
Proof.
  intros HM Hk. rewrite iter_shr by lia. rewrite Z2Nat.id by lia.
  unfold rne_div.
  destruct (Z.to_nat k) as [|n] eqn:En; [lia|].
  assert (Kn : k = Z.of_nat (S n)) by lia. subst k.
  assert (R : 2 ^ Z.of_nat (S n) = 2 ^ Z.of_nat n * 2)
    by (rewrite Nat2Z.inj_succ, Z.pow_succ_r by lia; ring).
  assert (P : 0 < 2 ^ Z.of_nat n) by (apply Z.pow_pos_nonneg; lia).
  cbn [shr_m shr_r shr_s]. split; [reflexivity|].
  rewrite R, (mod_mul_pos M (2 ^ Z.of_nat n) 2), <- Z.div_div by lia.
  set (Q := M / 2 ^ Z.of_nat n).
  set (a := M mod 2 ^ Z.of_nat n).
  pose proof (Z.mod_pos_bound M (2 ^ Z.of_nat n) P) as Ba. fold a in Ba.
  assert (HQ : Q = 2 * (Q / 2) + Q mod 2) by (apply Z.div_mod; lia).
  pose proof (Z.mod_pos_bound Q 2 ltac:(lia)) as Bb.
  rewrite Zodd_mod.
  destruct (Z.eqb_spec (Q mod 2) 1) as [H1|H1].
  - rewrite H1.
    destruct (Z.eqb_spec a 0) as [H2|H2]; cbn [negb orb loc_of_shr_record round_nearest_even].
    + rewrite H2. replace (2 * (0 + 2 ^ Z.of_nat n * 1)) with (2 ^ Z.of_nat n * 2) by ring.
      rewrite Z.compare_refl. reflexivity.
    + replace (2 * (a + 2 ^ Z.of_nat n * 1) ?= 2 ^ Z.of_nat n * 2) with Gt; [reflexivity|].
      symmetry. apply Z.compare_gt_iff. lia.
  - assert (H0 : Q mod 2 = 0) by lia. rewrite H0.
    replace (2 * (a + 2 ^ Z.of_nat n * 0) ?= 2 ^ Z.of_nat n * 2) with Lt
      by (symmetry; apply Z.compare_lt_iff; lia).
    destruct (a =? 0); reflexivity.
Qed.

Lemma digits_of M d : 2 ^ (d - 1) <= M < 2 ^ d -> 1 <= d -> Zdigits2 M = d.
Proof.
  intros H Hd. destruct M as [|p|p].
  - pose proof (Z.pow_pos_nonneg 2 (d - 1)). lia.
  - cbn. symmetry. apply (digits_unique (Zpos p)); [exact H|apply digits2_pos_spec|exact Hd|lia].
  - pose proof (Z.pow_pos_nonneg 2 (d - 1)). lia.
Qed.

Lemma round_aux_exact sx M ex k :
  0 < M -> 0 < k -> fexp 53 1024 (Zdigits2 M + ex) = ex + k ->
  2 ^ 52 <= rne_div M k < 2 ^ 53 -> ex + k <= 971 -> -1074 <= ex + k ->
  binary_round_aux 53 1024 sx M ex loc_Exact
  = S754_finite sx (Z.to_pos (rne_div M k)) (ex + k).
Proof.
  intros HM Hk HF HQ H1 H2. unfold binary_round_aux, shr_fexp. rewrite HF.
  replace (ex + k - ex) with k by lia. cbn [shr_record_of_loc].
  destruct k as [|p|p]; try lia. unfold shr at 1. rewrite iter_pos_nat.
  destruct (round_shift M (Zpos p)) as [_ R]; try lia. rewrite Z2Nat.inj_pos in R. rewrite R.
  assert (D : Zdigits2 (rne_div M (Zpos p)) = 53) by (apply digits_of; lia).
  rewrite D, fexp_eq.
  replace (Z.max (53 + (ex + Zpos p) - 53) (-1074) - (ex + Zpos p)) with 0 by lia.
  cbn [shr shr_m shr_record_of_loc].
  destruct (rne_div M (Zpos p)) eqn:Q; try lia.
  replace (ex + Zpos p <=? 1024 - 53) with true by (symmetry; apply Z.leb_le; lia).
  reflexivity.
Qed.

Lemma round_aux_carry sx M ex k :
  0 < M -> 0 < k -> fexp 53 1024 (Zdigits2 M + ex) = ex + k ->
  rne_div M k = 2 ^ 53 -> ex + k + 1 <= 971 -> -1074 <= ex + k ->
  binary_round_aux 53 1024 sx M ex loc_Exact
  = S754_finite sx 4503599627370496 (ex + k + 1).
Proof.
  intros HM Hk HF HQ H1 H2. unfold binary_round_aux, shr_fexp. rewrite HF.
  replace (ex + k - ex) with k by lia. cbn [shr_record_of_loc].
  destruct k as [|p|p]; try lia. unfold shr at 1. rewrite iter_pos_nat.
  destruct (round_shift M (Zpos p)) as [_ R]; try lia. rewrite Z2Nat.inj_pos in R. rewrite R, HQ.
  change (Zdigits2 (2 ^ 53)) with 54. rewrite fexp_eq.
  replace (Z.max (54 + (ex + Zpos p) - 53) (-1074) - (ex + Zpos p)) with 1 by lia.
  cbn. replace (ex + Zpos p + 1 <=? 971) with true by (symmetry; apply Z.leb_le; lia).
  reflexivity.
Qed.

Lemma sub_one_N sb m e :
  1 <= e ->
  SFsub 53 1024 (S754_finite false 4503599627370496 (-52)) (S754_finite sb m e)
  = binary_normalize 53 1024 (2 ^ 52 - cond_Zopp sb (Zpos m * 2 ^ (e + 52))) (-52) false.
Proof.
  intros He. destruct (sub_finite false 4503599627370496 (-52) sb m e) as (N & EN & HN).
  rewrite EN. replace (Z.min (-52) e) with (-52) in * by lia. f_equal.
  cbn [val] in HN. rewrite one_val in HN.
  assert (Ev : (IZR (Zpos m) * bpow e)%R = (IZR (Zpos m * 2 ^ (e + 52)) * bpow (-52))%R).
  { rewrite <- shift_val by lia. f_equal. f_equal. lia. }
  assert (E1 : 1%R = (IZR (2 ^ 52) * bpow (-52))%R) by (symmetry; exact one_val).
  assert (HK : (IZR N * bpow (-52))%R
               = (IZR (2 ^ 52 - cond_Zopp sb (Zpos m * 2 ^ (e + 52))) * bpow (-52))%R).
  { rewrite minus_IZR, IZR_cond_Zopp, HN, Ev. destruct sb; lra. }
  apply Z.le_antisymm; [apply (scale_le _ _ (-52)) | apply (scale_le _ _ (-52))]; lra.
Qed.

Lemma round_noshift sx p ex :
  ex <= fexp 53 1024 (Zpos (digits2_pos p) + ex) ->
  binary_round 53 1024 sx p ex = binary_round_aux 53 1024 sx (Zpos p) ex loc_Exact.
Proof.
  intros H. unfold binary_round, shl_align.
  destruct (fexp 53 1024 (Zpos (digits2_pos p) + ex) - ex) eqn:E; try reflexivity. lia.
Qed.

Lemma pow_split a b : 0 <= a -> 0 <= b -> 2 ^ (a + b) = 2 ^ a * 2 ^ b.
Proof. intros; apply Z.pow_add_r; lia. Qed.

(** [1 - x] for a large positive [x]: the exact difference, rounded, is [-x]. *)
Lemma sub_one_big m e :
  1 <= e <= 971 ->
  (2 ^ 52 < Zpos m < 2 ^ 53 /\ (e = 1 -> Z.even (Zpos m) = true)) \/
  (Zpos m = 2 ^ 52 /\ 2 <= e) ->
  SFsub 53 1024 (S754_finite false 4503599627370496 (-52)) (S754_finite false m e)
  = S754_finite true m e.
Proof.
  intros He Hm. rewrite sub_one_N by lia. cbn [cond_Zopp].
  set (T := 2 ^ (e + 52)).
  assert (T53 : 2 ^ 53 <= T) by (apply Z.pow_le_mono_r; lia).
  assert (ET : e = 1 -> T = 2 ^ 53) by (intros ->; reflexivity).
  assert (ET2 : 2 <= e -> 2 ^ 54 <= T) by (intros; apply Z.pow_le_mono_r; lia).
  destruct (Zpos m * T - 2 ^ 52) as [|P|P] eqn:EP.
  - exfalso. nia.
  - replace (2 ^ 52 - Zpos m * T) with (Zneg P) by lia. cbn [binary_normalize].
    destruct Hm as [[Hm Hev]|[Hm He2]].
    + assert (D : Zpos (digits2_pos P) = e + 105).
      { symmetry. apply (digits_unique (Zpos P)); [|apply digits2_pos_spec|lia|lia].
        replace (e + 105 - 1) with (52 + (e + 52)) by lia.
        replace (e + 105) with (53 + (e + 52)) by lia.
        rewrite (pow_split 52 (e + 52)), (pow_split 53 (e + 52)) by lia. fold T. nia. }
      assert (R : rne_div (Zpos P) (e + 52) = Zpos m).
      { unfold rne_div. fold T.
        assert (Q : Zpos P / T = Zpos m - 1)
          by (symmetry; apply (Z.div_unique _ _ _ (T - 2 ^ 52)); [left; lia | nia]).
        assert (Rm : Zpos P mod T = T - 2 ^ 52)
          by (symmetry; apply (Z.mod_unique _ _ (Zpos m - 1)); [left; lia | nia]).
        rewrite Q, Rm.
        destruct (Z.eq_dec e 1) as [E1|E1].
        - rewrite (ET E1).
          replace (2 * (2 ^ 53 - 2 ^ 52) ?= 2 ^ 53) with Eq by reflexivity.
          rewrite Z.sub_1_r, Z.even_pred, <- Z.negb_even, (Hev E1). cbn [negb]. lia.
        - replace (2 * (T - 2 ^ 52) ?= T) with Gt
            by (symmetry; apply Z.compare_gt_iff; specialize (ET2 ltac:(lia)); lia).
          lia. }
      rewrite round_noshift by (rewrite D, fexp_eq; lia).
      rewrite (round_aux_exact true (Zpos P) (-52) (e + 52)); try lia.
      * rewrite R. f_equal. lia.
      * change (Zdigits2 (Zpos P)) with (Zpos (digits2_pos P)). rewrite D, fexp_eq. lia.
    + assert (Em : m = 4503599627370496%positive) by (apply Pos2Z.inj; exact Hm).
      subst m. set (U := 2 ^ (e + 51)).
      assert (TU : T = 2 * U)
        by (unfold T, U; replace (e + 52) with (Z.succ (e + 51)) by lia;
            apply Z.pow_succ_r; lia).
      assert (U53 : 2 ^ 53 <= U) by (apply Z.pow_le_mono_r; lia).
      assert (EU : e = 2 -> U = 2 ^ 53) by (intros ->; reflexivity).
      assert (EU2 : 3 <= e -> 2 ^ 54 <= U) by (intros; apply Z.pow_le_mono_r; lia).
      change (Zpos 4503599627370496) with (2 ^ 52) in EP.
      assert (D : Zpos (digits2_pos P) = e + 104).
      { symmetry. apply (digits_unique (Zpos P)); [|apply digits2_pos_spec|lia|lia].
        replace (e + 104 - 1) with (52 + (e + 51)) by lia.
        replace (e + 104) with (53 + (e + 51)) by lia.
        rewrite (pow_split 52 (e + 51)), (pow_split 53 (e + 51)) by lia. fold U. nia. }
      assert (R : rne_div (Zpos P) (e + 51) = 2 ^ 53).
      { unfold rne_div. fold U.
        assert (Q : Zpos P / U = 2 ^ 53 - 1)
          by (symmetry; apply (Z.div_unique _ _ _ (U - 2 ^ 52)); [left; lia | nia]).
        assert (Rm : Zpos P mod U = U - 2 ^ 52)
          by (symmetry; apply (Z.mod_unique _ _ (2 ^ 53 - 1)); [left; lia | nia]).
        rewrite Q, Rm.
        destruct (Z.eq_dec e 2) as [E2|E2].
        - rewrite (EU E2). reflexivity.
        - replace (2 * (U - 2 ^ 52) ?= U) with Gt
            by (symmetry; apply Z.compare_gt_iff; specialize (EU2 ltac:(lia)); lia).
          lia. }
      rewrite round_noshift by (rewrite D, fexp_eq; lia).
      rewrite (round_aux_carry true (Zpos P) (-52) (e + 51)); try lia.
      * f_equal. lia.
      * change (Zdigits2 (Zpos P)) with (Zpos (digits2_pos P)). rewrite D, fexp_eq. lia.
  - exfalso. nia.
Qed.

(** [1 - y] for a large negative [y]: the exact difference, rounded, is [-y]. *)
Lemma sub_one_neg_big m e :
  1 <= e <= 971 -> 2 ^ 52 <= Zpos m < 2 ^ 53 -> (e = 1 -> Z.even (Zpos m) = true) ->
  SFsub 53 1024 (S754_finite false 4503599627370496 (-52)) (S754_finite true m e)
  = S754_finite false m e.
Proof.
  intros He Hm Hev. rewrite sub_one_N by lia. cbn [cond_Zopp].
  set (T := 2 ^ (e + 52)).
  assert (T53 : 2 ^ 53 <= T) by (apply Z.pow_le_mono_r; lia).
  assert (ET : e = 1 -> T = 2 ^ 53) by (intros ->; reflexivity).
  assert (ET2 : 2 <= e -> 2 ^ 54 <= T) by (intros; apply Z.pow_le_mono_r; lia).
  destruct (2 ^ 52 - - (Zpos m * T)) as [|P|P] eqn:EP; try (exfalso; nia).
  cbn [binary_normalize].
  assert (D : Zpos (digits2_pos P) = e + 105).
  { symmetry. apply (digits_unique (Zpos P)); [|apply digits2_pos_spec|lia|lia].
    replace (e + 105 - 1) with (52 + (e + 52)) by lia.
    replace (e + 105) with (53 + (e + 52)) by lia.
    rewrite (pow_split 52 (e + 52)), (pow_split 53 (e + 52)) by lia. fold T. nia. }
  assert (R : rne_div (Zpos P) (e + 52) = Zpos m).
  { unfold rne_div. fold T.
    assert (Q : Zpos P / T = Zpos m)
      by (symmetry; apply (Z.div_unique _ _ _ (2 ^ 52)); [left; lia | nia]).
    assert (Rm : Zpos P mod T = 2 ^ 52)
      by (symmetry; apply (Z.mod_unique _ _ (Zpos m)); [left; lia | nia]).
    rewrite Q, Rm.
    destruct (Z.eq_dec e 1) as [E1|E1].
    - rewrite (ET E1), (Hev E1). reflexivity.
    - replace (2 * 2 ^ 52 ?= T) with Lt
        by (symmetry; apply Z.compare_lt_iff; specialize (ET2 ltac:(lia)); lia).
      reflexivity. }
  rewrite round_noshift by (rewrite D, fexp_eq; lia).
  rewrite (round_aux_exact false (Zpos P) (-52) (e + 52)); try lia.
  - rewrite R. f_equal. lia.
  - change (Zdigits2 (Zpos P)) with (Zpos (digits2_pos P)). rewrite D, fexp_eq. lia.
Qed.

Lemma bounded32 M E :
  SpecFloat.bounded 24 128 M E = true -> 0 < Zpos M < 2 ^ 24 /\ -149 <= E <= 104.
Proof.
  unfold SpecFloat.bounded, canonical_mantissa. rewrite andb_true_iff, Z.eqb_eq, Z.leb_le.
  intros [H1 H2]. unfold fexp, emin in H1. pose proof (digits2_pos_spec M) as D.
  assert (Zpos (digits2_pos M) <= 24) by (pose proof (Z.le_max_l (Zpos (digits2_pos M) + E - 24) (3 - 128 - 24)); lia).
  assert (2 ^ Zpos (digits2_pos M) <= 2 ^ 24) by (apply Z.pow_le_mono_r; lia). lia.
Qed.

Lemma to_number_val s M E :
  SpecFloat.bounded 24 128 M E = true ->
  exists m e, Prim2SF (to_number (S754_finite s M E)) = S754_finite s m e /\
              (IZR (Zpos m) * bpow e)%R = (IZR (Zpos M) * bpow E)%R.
Proof.
  intros HB. destruct (bounded32 M E HB) as [HM HE].
  destruct (of_uint63_val (Zpos M) ltac:(lia)) as (m0 & e0 & E0 & V0).
  assert (HR : exists m e, Prim2SF (Z.ldexp (of_uint63 (Uint63.of_Z (Zpos M))) E)
                           = S754_finite false m e /\
                           (IZR (Zpos m) * bpow e)%R = (IZR (Zpos M) * bpow E)%R).
  { rewrite Z_ldexp_spec, E0. cbn [SFldexp].
    apply round_exact; [lia|lia|lia|].
    rewrite bpow_plus, <- Rmult_assoc, V0, bpow_0. ring. }
  destruct HR as (m & e & Em & Vm). exists m, e. split; [|exact Vm].
  unfold to_number, SF2Prim. destruct s; [|exact Em].
  rewrite opp_spec, Em. reflexivity.
Qed.

Lemma scale_eq a b e k :
  0 <= k -> (IZR a * bpow e = IZR b * bpow (e + k))%R -> a = b * 2 ^ k.
Proof.
  intros Hk H. rewrite shift_val in H by lia.
  apply Z.le_antisymm; [apply (scale_le _ _ e) | apply (scale_le _ _ e)]; lra.
Qed.

(** A positive binary32 value widened to binary64, above 2^53. *)
Lemma big_f32_shape m e M E :
  valid_binary (S754_finite false m e) = true ->
  0 < Zpos M < 2 ^ 24 ->
  (IZR (Zpos m) * bpow e)%R = (IZR (Zpos M) * bpow E)%R ->
  (bpow 53 < IZR (Zpos m) * bpow e)%R ->
  1 <= e <= 971 /\
  ((2 ^ 52 < Zpos m < 2 ^ 53 /\ (e = 1 -> Z.even (Zpos m) = true)) \/
   (Zpos m = 2 ^ 52 /\ 2 <= e)) /\
  2 ^ 52 <= Zpos m < 2 ^ 53 /\ (e = 1 -> Z.even (Zpos m) = true).
Proof.
  intros V HM Hv Hb. destruct (valid_bounds _ _ _ V) as (Hm & He & Hn & _).
  assert (He1 : 1 <= e).
  { destruct (Z_le_gt_dec 1 e) as [|Hlt]; [lia|exfalso].
    pose proof (bpow_53_lt (Zpos m) e ltac:(lia)). pose proof (bpow_le (53 + e) 53 ltac:(lia)).
    lra. }
  assert (Hm2 : 2 ^ 52 <= Zpos m) by (destruct Hn; lia).
  assert (Hev : e = 1 -> Z.even (Zpos m) = true).
  { intros ->. assert (HE : 2 <= E).
    { destruct (Z_le_gt_dec 2 E) as [|Hlt]; [lia|exfalso].
      assert (HME : Zpos M = Zpos m * 2 ^ (1 - E)).
      { apply (scale_eq _ _ E); [lia|]. replace (E + (1 - E)) with 1 by lia. lra. }
      pose proof (Z.pow_pos_nonneg 2 (1 - E) ltac:(lia)). nia. }
    replace E with (1 + (E - 1)) in Hv by lia.
    apply scale_eq in Hv; [|lia]. rewrite Hv.
    replace (E - 1) with (Z.succ (E - 2)) by lia. rewrite Z.pow_succ_r by lia.
    rewrite !Z.even_mul. change (Z.even 2) with true. rewrite !orb_true_r. reflexivity. }
  split; [lia|]. split; [|split; [lia|exact Hev]].
  destruct (Z.eq_dec (Zpos m) (2 ^ 52)) as [E52|E52].
  - right. split; [exact E52|].
    destruct (Z.eq_dec e 1) as [->|]; [|lia]. exfalso. rewrite E52 in Hb.
    change (2 ^ 52) with (Zpos 4503599627370496) in Hb. rewrite two53_half in Hb. lra.
  - left. split; [lia|exact Hev].
Qed.

Lemma big_sub_sub v :
  valid32 v = true -> v <> S754_nan ->
  (to_number v <=? 0x1p53)%float = false -> (0.5 <? to_number v)%float = true ->
  (1 - (1 - to_number v))%float = to_number v.
Proof.
  intros Hv Hn Hb Hh.
  destruct v as [[]|[]| |s M E]; try (vm_compute in Hb, Hh; discriminate);
    [vm_compute; reflexivity|].
  destruct (to_number_val s M E Hv) as (m & e & Ex & Vx).
  destruct (bounded32 M E Hv) as [HM _].
  pose proof (Prim2SF_valid (to_number (S754_finite s M E))) as V. rewrite Ex in V.
  apply Prim2SF_inj. rewrite !sub64, one_sf, Ex.
  destruct s.
  - rewrite ltb_spec, half_sf, Ex in Hh. cbn in Hh. discriminate.
  - rewrite leb_spec, Ex, two53_sf in Hb.
    assert (Hgt : (bpow 53 < IZR (Zpos m) * bpow e)%R).
    { destruct (Rlt_le_dec (bpow 53) (IZR (Zpos m) * bpow e)) as [|Hle]; [assumption|].
      exfalso. rewrite <- two53_half in Hle.
      apply (proj2 (leb_val _ (S754_finite false 4503599627370496 1) V eq_refl I I)) in Hle.
      congruence. }
    destruct (big_f32_shape m e M E V HM Vx Hgt) as (He & Hc & Hm & Hev).
    rewrite sub_one_big by assumption. apply sub_one_neg_big; assumption.
Qed.

Lemma to_number_not_nan v : v <> S754_nan -> valid32 v = true -> Prim2SF (to_number v) <> S754_nan.
Proof.
  intros Hn Hv. destruct v as [[]|[]| |s M E]; try (vm_compute; discriminate); [congruence|].
  destruct (to_number_val s M E Hv) as (m & e & -> & _). discriminate.
Qed.

Lemma to_number_not_pred_half v :
  valid32 v = true -> to_number v <> 0x1.fffffffffffffp-2%float.
Proof.
  intros Hv Ev. apply (f_equal Prim2SF) in Ev.
  change (Prim2SF 0x1.fffffffffffffp-2) with (S754_finite false 9007199254740991 (-54)) in Ev.
  destruct v as [[]|[]| |s M E]; try (vm_compute in Ev; discriminate).
  destruct (to_number_val s M E Hv) as (m & e & Ex & Vx).
  destruct (bounded32 M E Hv) as [HM _].
  rewrite Ex in Ev. injection Ev as -> -> ->.
  destruct (Z_le_gt_dec (-54) E) as [Hle|Hgt].
  - assert (H : 9007199254740991 = Zpos M * 2 ^ (E + 54)).
    { apply (scale_eq _ _ (-54)); [lia|]. replace (-54 + (E + 54)) with E by lia. exact Vx. }
    destruct (Z.eq_dec E (-54)) as [->|HE]; [cbn in H; lia|].
    replace (E + 54) with (Z.succ (E + 53)) in H by lia.
    rewrite Z.pow_succ_r in H by lia. lia.
  - assert (H : Zpos M = 9007199254740991 * 2 ^ (-54 - E)).
    { apply (scale_eq _ _ E); [lia|]. replace (E + (-54 - E)) with (-54) by lia. lra. }
    pose proof (Z.pow_pos_nonneg 2 (-54 - E) ltac:(lia)). lia.
Qed.


End WidenFacts.

(** ** Route lemmas *)

Module RouteFacts.

Import Pre Interp Server.
Local Open Scope string_scope.

(** Every error of [preprocessImage] carries the one message of its catch. *)
Lemma preprocess_err jimp_read jimp_resize buf m :
  preprocessImage jimp_read jimp_resize buf = Err m -> m = msg_procesar.
Proof.
  unfold preprocessImage.
  destruct (jimp_read buf) as [img|e]; [|congruence].
  destruct (tensor3d _ _); congruence.
Qed.

Lemma preprocess_read_err jimp_read jimp_resize buf e :
  jimp_read buf = Err e -> preprocessImage jimp_read jimp_resize buf = Err msg_procesar.
Proof. intros H; unfold preprocessImage; rewrite H; reflexivity. Qed.

(** The staged outcome of a request holding a buffer, the model loaded. *)
Lemma pipeline_respond jimp_read jimp_resize model_predict buf :
  respond (pipeline jimp_read jimp_resize model_predict true buf) =
  match preprocessImage jimp_read jimp_resize buf with
  | Err _ => (resp_internal msg_procesar, [EvRead buf])
  | Ok t =>
      match model_predict t with
      | Err _ => (resp_internal msg_prediccion, [EvRead buf; EvPredict t])
      | Ok c => (resp_success (interpret c), [EvRead buf; EvPredict t])
      end
  end.
Proof.
  unfold pipeline, respond.
  destruct (preprocessImage _ _ buf) as [t|m] eqn:E.
  - unfold makePrediction; simpl.
    destruct (model_predict t); reflexivity.
  - simpl. rewrite (preprocess_err _ _ _ _ E). reflexivity.
Qed.

(** A non-empty string passes the two checks and is decoded. *)
Lemma post_predict_string jimp_read jimp_resize model_predict s :
  s <> "" ->
  post_predict jimp_read jimp_resize model_predict true (JStr s) =
  respond (pipeline jimp_read jimp_resize model_predict true
             (B64.buffer_from_base64 (Prefix.strip s))).
Proof.
  intros Hs. unfold post_predict. simpl.
  apply String.eqb_neq in Hs. rewrite Hs. reflexivity.
Qed.

Lemma post_predict_upload_file jimp_read jimp_resize model_predict buf :
  post_predict_upload jimp_read jimp_resize model_predict true (Some buf) =
  respond (pipeline jimp_read jimp_resize model_predict true buf).
Proof. reflexivity. Qed.

Lemma respond_status jimp_read jimp_resize model_predict l buf :
  status (fst (respond (pipeline jimp_read jimp_resize model_predict l buf))) = 500%Z \/
  status (fst (respond (pipeline jimp_read jimp_resize model_predict l buf))) = 200%Z.
Proof.
  unfold respond.
  destruct (pipeline jimp_read jimp_resize model_predict l buf) as [[r|m] ev]; simpl; auto.
Qed.

End RouteFacts.

(** ** Claims on the result interpreter and the routes *)

Module ServerSpec.

Import Pre Interp Server RouteFacts.
Local Open Scope string_scope.

(** C1, counterexample: for the score 0.987654 the label is Maligno, but the
    confidence is the rounded 98.77, not [score * 100]. *)
Lemma interpret_confidence_not_times_100 :
  diagnosis_of (interpret 0x1.f9adc8fb86f48p-1) = Maligno /\
  (confidence_of (interpret 0x1.f9adc8fb86f48p-1) =? 0x1.f9adc8fb86f48p-1 * 100)%float = false /\
  confidence_of (interpret 0x1.f9adc8fb86f48p-1) = (9877 / 100)%float.
Proof. vm_compute. repeat split; reflexivity. Qed.

(** C1 (amended): a score above 0.5 gives Maligno with confidence
    [Math.round(score * 100 * 100) / 100]; any other score gives Benigno with
    confidence [Math.round((1 - score) * 100 * 100) / 100]; the score 0.5
    itself gives Benigno with confidence 50. *)
Theorem interpret_decision (s : float) :
  interpret s =
    (if (0.5 <? s)%float
     then {| diagnosis_of := Maligno;
             confidence_of := (JS.round (s * 100 * 100) / 100)%float;
             rawPrediction := s |}
     else {| diagnosis_of := Benigno;
             confidence_of := (JS.round ((1 - s) * 100 * 100) / 100)%float;
             rawPrediction := s |}) /\
  interpret 0.5 = {| diagnosis_of := Benigno; confidence_of := 50; rawPrediction := 0.5 |}.
Proof.
  split.
  - unfold interpret, finalConfidence, isMalignant.
    destruct (0.5 <? s)%float; reflexivity.
  - vm_compute. reflexivity.
Qed.

(** C3: when Jimp rejects the bytes, both routes answer 500 with the
    preprocessing message, and the only call made is the read: the model is
    never asked to predict. *)
Theorem undecodable_never_predicts jimp_read jimp_resize model_predict buf e :
  jimp_read buf = Err e ->
  post_predict_upload jimp_read jimp_resize model_predict true (Some buf)
    = (resp_internal msg_procesar, [EvRead buf]) /\
  (forall s, s <> "" -> B64.buffer_from_base64 (Prefix.strip s) = buf ->
   post_predict jimp_read jimp_resize model_predict true (JStr s)
     = (resp_internal msg_procesar, [EvRead buf])).
Proof.
  intros He. split.
  - unfold post_predict_upload; simpl.
    rewrite pipeline_respond, (preprocess_read_err _ _ _ _ He). reflexivity.
  - intros s Hs Hb. rewrite (post_predict_string _ _ _ _ Hs), Hb.
    rewrite pipeline_respond, (preprocess_read_err _ _ _ _ He). reflexivity.
Qed.

Lemma undecodable_never_predicts_witness :
  post_predict_upload (fun _ => Err "Could not find MIME for Buffer") (fun _ _ i => i)
    (fun _ => Ok 0%float) true (Some [])
  = (resp_internal msg_procesar, [EvRead []]).
Proof.
  exact (proj1 (undecodable_never_predicts (fun _ => Err "Could not find MIME for Buffer")
                  (fun _ _ i => i) (fun _ => Ok 0%float) [] _ eq_refl)).
Defined.

(** C4: with [isModelLoaded] false, as it is before [loadModel] has finished
    and after a failed load, both routes answer 503 at once and make no call
    to Jimp or to the model. *)
Theorem unloaded_unavailable jimp_read jimp_resize model_predict image file :
  post_predict jimp_read jimp_resize model_predict false image = (resp_unavailable, []) /\
  post_predict_upload jimp_read jimp_resize model_predict false file = (resp_unavailable, []) /\
  Lifecycle.isModelLoaded_initial = false /\
  (forall e logging, Lifecycle.loadModel (Err e) logging = false) /\
  (forall e, Lifecycle.loadModel (Ok tt) (Err e) = false).
Proof. repeat split; reflexivity. Qed.

(** C5, counterexample: a model that fails with its own message (a shape
    mismatch) yields a 500 carrying the pipeline's message instead. *)
Lemma prediction_error_replaced :
  exists t,
    post_predict_upload (fun _ => Ok {| width := 1; height := 1; data := [] |})
      (fun _ _ _ => {| width := 224; height := 224;
                       data := repeat Byte.x80 (224 * 224 * 4) |})
      (fun _ => Err "expected input to have shape [null,299,299,3]") true (Some [])
    = (resp_internal msg_prediccion, [EvRead []; EvPredict t]) /\
    String.eqb msg_prediccion "expected input to have shape [null,299,299,3]" = false.
Proof.
  destruct (NormalizerFacts.preprocess_ok
              (fun _ => Ok {| width := 1; height := 1; data := [] |})
              (fun _ _ _ => {| width := 224; height := 224;
                               data := repeat Byte.x80 (224 * 224 * 4) |})
              [] _ eq_refl eq_refl eq_refl (repeat_length _ _)) as [Hp _].
  eexists. split.
  - rewrite post_predict_upload_file, pipeline_respond, Hp. reflexivity.
  - vm_compute. reflexivity.
Qed.

(** C5 (amended): the pipeline stops at the first failing stage and calls
    each collaborator at most once; a preprocessing failure reaches the
    boundary as a 500 with "Error al procesar la imagen", a prediction failure
    as a 500 with "Error al realizar la predicción", whatever the underlying
    error was. *)
Theorem stage_errors_replaced jimp_read jimp_resize model_predict buf :
  post_predict_upload jimp_read jimp_resize model_predict true (Some buf) =
    match preprocessImage jimp_read jimp_resize buf with
    | Err _ => (resp_internal msg_procesar, [EvRead buf])
    | Ok t =>
        match model_predict t with
        | Err _ => (resp_internal msg_prediccion, [EvRead buf; EvPredict t])
        | Ok c => (resp_success (interpret c), [EvRead buf; EvPredict t])
        end
    end /\
  (forall m, preprocessImage jimp_read jimp_resize buf = Err m -> m = msg_procesar) /\
  (forall s, s <> "" -> B64.buffer_from_base64 (Prefix.strip s) = buf ->
   post_predict jimp_read jimp_resize model_predict true (JStr s)
     = post_predict_upload jimp_read jimp_resize model_predict true (Some buf)).
Proof.
  split; [|split].
  - apply pipeline_respond.
  - apply preprocess_err.
  - intros s Hs Hb. rewrite (post_predict_string _ _ _ _ Hs), Hb. reflexivity.
Qed.



(** C10: [image.replace] and [Buffer.from] never throw on a string, so a
    non-empty string never gets the 400 "Formato de imagen inválido": it is
    decoded, leniently, and handed to Jimp; when Jimp rejects the bytes the
    answer is the 500 of a preprocessing failure. *)
Theorem base64_catch_unreachable jimp_read jimp_resize model_predict isModelLoaded s :
  s <> "" ->
  fst (post_predict jimp_read jimp_resize model_predict isModelLoaded (JStr s))
    <> resp_bad_base64 /\
  decode_image (JStr s) = Ok (B64.buffer_from_base64 (Prefix.strip s)) /\
  (forall e, jimp_read (B64.buffer_from_base64 (Prefix.strip s)) = Err e ->
   post_predict jimp_read jimp_resize model_predict true (JStr s)
     = (resp_internal msg_procesar, [EvRead (B64.buffer_from_base64 (Prefix.strip s))])).
Proof.
  intros Hs. split; [|split].
  - destruct isModelLoaded.
    + rewrite (post_predict_string _ _ _ _ Hs). intros Heq.
      destruct (respond_status jimp_read jimp_resize model_predict true
                  (B64.buffer_from_base64 (Prefix.strip s))) as [H|H];
        rewrite Heq in H; discriminate H.
    + discriminate.
  - reflexivity.
  - intros e He. rewrite (post_predict_string _ _ _ _ Hs), pipeline_respond.
    rewrite (preprocess_read_err _ _ _ _ He). reflexivity.
Qed.

Lemma base64_catch_unreachable_witness :
  fst (post_predict (fun _ => Err "Could not find MIME for Buffer") (fun _ _ i => i)
         (fun _ => Ok 0%float) true (JStr "not base64 at all!")) <> resp_bad_base64.
Proof.
  exact (proj1 (base64_catch_unreachable (fun _ => Err "Could not find MIME for Buffer")
                  (fun _ _ i => i) (fun _ => Ok 0%float) true "not base64 at all!"
                  ltac:(discriminate))).
Defined.

End ServerSpec.

(** ** The normalizer's output *)

Module NormalizerSpec.

Import Pre NormalizerFacts.
Local Open Scope nat_scope.

Section Jimp.

Variable jimp_read : list Byte.byte -> res bitmap.
Variable jimp_resize : nat -> nat -> bitmap -> bitmap.

(** C2: when Jimp reads the buffer, whatever its resolution, and resizes it to
    a 224x224 RGBA bitmap, [preprocessImage] returns a tensor of shape
    [1, 224, 224, 3] with 224*224*3 values; the value of channel [c] (R, G or
    B) of pixel [q] is byte [4q + c] of the bitmap divided by 255, stored as
    binary32 (the correctly rounded quotient), and lies in [0, 1]; the alpha
    bytes [4q + 3] are not read. *)
Theorem preprocessImage_normalizes imageBuffer img :
  jimp_read imageBuffer = Ok img ->
  width (jimp_resize 224 224 img) = 224 ->
  height (jimp_resize 224 224 img) = 224 ->
  List.length (data (jimp_resize 224 224 img)) = 224 * 224 * 4 ->
  exists t,
    preprocessImage jimp_read jimp_resize imageBuffer = Ok t /\
    shape t = [1; 224; 224; 3] /\
    List.length (values t) = 224 * 224 * 3 /\
    forall q c, q < 224 * 224 -> c < 3 ->
      exists b,
        nth_error (data (jimp_resize 224 224 img)) (4 * q + c) = Some b /\
        nth_error (values t) (3 * q + c) = Some (F32.normalized b) /\
        F32.normalized b = F32.quot255 b /\
        F32.in_unit (F32.normalized b) = true.
Proof.
  intros Hread Hw Hh Hlen.
  destruct (preprocess_ok jimp_read jimp_resize imageBuffer img Hread Hw Hh Hlen)
    as [Hp [Hl Hv]].
  eexists. split; [exact Hp|]. split; [reflexivity|]. split.
  - unfold expandDims0; cbn [values]. rewrite Hl. apply Nat.mul_comm.
  - intros q c Hq Hc. destruct (Hv q c Hq Hc) as [b [Hb Hn]].
    exists b. split; [exact Hb|]. split; [exact Hn|].
    apply F32Facts.normalized_byte.
Qed.

End Jimp.

Lemma preprocessImage_normalizes_witness :
  exists t,
    preprocessImage (fun _ => Ok {| width := 640; height := 480; data := [] |})
      (fun _ _ _ => {| width := 224; height := 224;
                       data := repeat Byte.x7f (224 * 224 * 4) |}) [] = Ok t /\
    shape t = [1; 224; 224; 3].
Proof.
  destruct (preprocessImage_normalizes
              (fun _ => Ok {| width := 640; height := 480; data := [] |})
              (fun _ _ _ => {| width := 224; height := 224;
                               data := repeat Byte.x7f (224 * 224 * 4) |})
              [] _ eq_refl eq_refl eq_refl (repeat_length _ _))
    as [t [Ht [Hs _]]].
  exists t. split; [exact Ht|exact Hs].
Defined.

End NormalizerSpec.

(** ** The result interpreter on binary64 scores *)

Module FloatSpec.
Import FloatVal FloatFacts Interp.

(** C7 (corrected): for a score [x] that a [Float32Array] can hold, read as a
    number, that is not NaN and differs from 0.5, the scores [x] and [1 - x]
    get opposite labels and the same confidence. *)
Theorem interpret_complement (v : spec_float)
  (Hv : F32.valid32 v = true) (Hn : v <> S754_nan) (Hh : F32.to_number v <> 0.5%float) :
  diagnosis_of (interpret (1 - F32.to_number v)) <> diagnosis_of (interpret (F32.to_number v)) /\
  confidence_of (interpret (1 - F32.to_number v)) = confidence_of (interpret (F32.to_number v)).
Proof.
  pose proof (WidenFacts.to_number_not_nan v Hn Hv) as Hx.
  unfold interpret, finalConfidence, isMalignant. cbv zeta.
  cbn [diagnosis_of confidence_of].
  destruct (0.5 <? F32.to_number v)%float eqn:H.
  - assert (E : (1 - (1 - F32.to_number v))%float = F32.to_number v).
    { destruct (F32.to_number v <=? 0x1p53)%float eqn:Hb;
        [exact (sub_sub_exact _ H Hb) | exact (WidenFacts.big_sub_sub v Hv Hn Hb H)]. }
    rewrite (sub_one_not_gt _ H), E. split; [discriminate|reflexivity].
  - rewrite (sub_one_gt_half _ H Hh (WidenFacts.to_number_not_pred_half v Hv) Hx).
    split; [discriminate|reflexivity].
Qed.

(** At the binary32 value 0.25. *)
Lemma interpret_complement_witness :
  diagnosis_of (interpret (1 - F32.to_number (S754_finite false 8388608 (-25))))
    <> diagnosis_of (interpret (F32.to_number (S754_finite false 8388608 (-25)))) /\
  confidence_of (interpret (1 - F32.to_number (S754_finite false 8388608 (-25))))
    = confidence_of (interpret (F32.to_number (S754_finite false 8388608 (-25)))).
Proof.
  apply (interpret_complement (S754_finite false 8388608 (-25))).
  - vm_compute. reflexivity.
  - discriminate.
  - intros E. pose proof (f_equal Prim2SF E) as E'. vm_compute in E'. discriminate.
Defined.

(** C7: a [Float32Array] can hold NaN, which is not 0.5, and then [x] and
    [1 - x] both get the label Benigno. *)
Lemma interpret_complement_nan :
  F32.valid32 S754_nan = true /\
  PrimFloat.is_nan (F32.to_number S754_nan) = true /\
  diagnosis_of (interpret (1 - F32.to_number S754_nan)) = Benigno /\
  diagnosis_of (interpret (F32.to_number S754_nan)) = Benigno.
Proof. vm_compute. repeat split. Qed.

(** C8 (corrected): the confidence is [Math.round] of the binary64 product
    [finalConfidence s * 100 * 100], divided by 100. [Math.round] gives the
    integer nearest to the product, ties toward +infinity, and returns the
    product unchanged when it is already an integer (exponent at least 0). *)
Theorem confidence_rounding (s : float) :
  confidence_of (interpret s) = (JS.round (finalConfidence s * 100 * 100) / 100)%float /\
  (forall sg m e, Prim2SF (finalConfidence s * 100 * 100)%float = S754_finite sg m e ->
     (e < 0 -> exists k,
        val (Prim2SF (JS.round (finalConfidence s * 100 * 100))) = IZR k /\
        (IZR k - / 2 <= val (Prim2SF (finalConfidence s * 100 * 100)) < IZR k + / 2)%R) /\
     (0 <= e -> JS.round (finalConfidence s * 100 * 100) = (finalConfidence s * 100 * 100)%float)).
Proof.
  split; [reflexivity|]. intros sg m e E. split.
  - intros He. exact (js_round_nearest _ sg m e E He).
  - intros He. unfold JS.round. rewrite E. apply Z.leb_le in He. rewrite He. reflexivity.
Qed.

(** C8: the binary32 score -15700627292160 (mantissa 14973285, exponent 20)
    has [1 - s] = 15700627292161 exactly, so its exact percentage is the
    integer 1570062729216100, a binary64 number, which rounding to two
    decimals leaves as it is; the returned confidence is 1570062729216099.75. *)
Lemma confidence_double_rounding :
  F32.valid32 (S754_finite true 14973285 20) = true /\
  F32.to_number (S754_finite true 14973285 20) = (-15700627292160)%float /\
  finalConfidence (F32.to_number (S754_finite true 14973285 20)) = 15700627292161%float /\
  (15700627292161 * 100)%float = 1570062729216100%float /\
  Prim2SF 1570062729216100%float = S754_finite false 6280250916864400 (-2) /\
  confidence_of (interpret (F32.to_number (S754_finite true 14973285 20)))
    = 1570062729216099.75%float /\
  (confidence_of (interpret (F32.to_number (S754_finite true 14973285 20)))
     =? 1570062729216100)%float = false.
Proof. vm_compute. repeat split. Qed.

(** C9 (corrected): for a score that is not NaN, the confidence before
    rounding is [Math.max(s, 1 - s)], and the returned confidence is at
    least 50, so never negative. *)
Theorem confidence_at_least_50 (s : float) (Hs : PrimFloat.is_nan s = false) :
  finalConfidence s = JS.max s (1 - s) /\
  (50 <=? confidence_of (interpret s))%float = true /\
  (confidence_of (interpret s) <? 0)%float = false.
Proof.
  pose proof (conf_ge_50 _ (final_atleast s (is_nan_not s Hs))) as H50.
  split; [apply final_is_max|]. split; [exact H50|]. exact (ge_50_not_neg _ H50).
Qed.

Lemma confidence_at_least_50_witness :
  finalConfidence 0.25 = JS.max 0.25 (1 - 0.25) /\
  (50 <=? confidence_of (interpret 0.25))%float = true /\
  (confidence_of (interpret 0.25) <? 0)%float = false.
Proof. apply confidence_at_least_50. vm_compute. reflexivity. Defined.

(** C9: for a NaN score the returned confidence is NaN, which is not at
    least 50. *)
Lemma confidence_nan :
  PrimFloat.is_nan (confidence_of (interpret nan)) = true /\
  (50 <=? confidence_of (interpret nan))%float = false.
Proof. vm_compute. split; reflexivity. Qed.

End FloatSpec.

(** ** The normalizer on bitmaps of any size *)

Module NormalizerExtra.

Import Pre NormalizerFacts.
Local Open Scope nat_scope.

Lemma rgb_loop_length fuel d i r a : List.length (rgb_loop fuel d i r a) = List.length a.
Proof.
  revert i r a; induction fuel as [|fuel IH]; intros i r a; cbn [rgb_loop]; [reflexivity|].
  destruct (Nat.ltb i (List.length d)); [|reflexivity].
  rewrite IH, !store_length. reflexivity.
Qed.

Lemma rgbData_length img : List.length (rgbData_of img) = width img * height img * 3.
Proof. unfold rgbData_of. rewrite rgb_loop_length, repeat_length. reflexivity. Qed.

Lemma div3 j c : c < 3 -> (3 * j + c) / 3 = j /\ (3 * j + c) mod 3 = c.
Proof.
  intros Hc. split.
  - symmetry. apply (Nat.div_unique _ _ _ c); lia.
  - symmetry. apply (Nat.mod_unique _ _ j); lia.
Qed.

Lemma div3_ge j k : 3 * j <= k -> j <= k / 3.
Proof. intros H. apply Nat.div_le_lower_bound; lia. Qed.

(** What the loop leaves in each slot, from pixel [j] on: the quotient
    [data[4q + c] / 255] for a pixel [q] whose first byte exists, the slot as
    it was otherwise. *)
Lemma rgb_loop_slot fuel d j a k :
  List.length d <= 4 * (j + fuel) ->
  nth_error (rgb_loop fuel d (4 * j) (3 * j) a) k =
  if (3 * j <=? k) && (4 * (k / 3) <? List.length d) && (k <? List.length a)
  then Some (JS.fround (byte_at d (4 * (k / 3) + k mod 3) / 255)%float)
  else nth_error a k.
Proof.
  revert j a; induction fuel as [|fuel IH]; intros j a Hf; cbn [rgb_loop].
  - destruct (Nat.leb_spec (3 * j) k) as [Hk|Hk]; [|reflexivity].
    pose proof (div3_ge j k Hk).
    destruct (Nat.ltb_spec (4 * (k / 3)) (List.length d)); [lia|reflexivity].
  - destruct (Nat.ltb_spec (4 * j) (List.length d)) as [Hlt|Hge].
    + replace (4 * j + 4) with (4 * S j) by lia.
      replace (3 * j + 3) with (3 * S j) by lia.
      rewrite IH by lia. rewrite !store_length.
      destruct (Nat.leb_spec (3 * S j) k) as [Hk|Hk].
      * assert (3 * j <= k) by lia. rewrite (proj2 (Nat.leb_le _ _) H). cbn [andb].
        destruct ((4 * (k / 3) <? List.length d) && (k <? List.length a)); [reflexivity|].
        rewrite !store_other by lia. reflexivity.
      * cbn [andb]. destruct (Nat.leb_spec (3 * j) k) as [Hk'|Hk'].
        -- destruct (div3 j (k - 3 * j) ltac:(lia)) as [Hq Hc].
           replace (3 * j + (k - 3 * j)) with k in Hq, Hc by lia.
           rewrite Hq, Hc. rewrite (proj2 (Nat.ltb_lt _ _) Hlt). cbn [andb].
           destruct (Nat.ltb_spec k (List.length a)) as [Ha|Ha].
           ++ remember (k - 3 * j) as c eqn:Ec.
              assert (Ek : k = 3 * j + c) by lia. subst k.
              destruct c as [|[|[|c]]]; try lia; rewrite ?Nat.add_0_r;
                repeat first [ rewrite store_same by (rewrite ?store_length; lia)
                             | rewrite store_other by lia ]; reflexivity.
           ++ rewrite (proj2 (nth_error_None _ _) Ha).
              apply nth_error_None. rewrite !store_length. exact Ha.
        -- rewrite !store_other by lia. reflexivity.
    + destruct (Nat.leb_spec (3 * j) k) as [Hk|Hk]; [|reflexivity].
      pose proof (div3_ge j k Hk).
      destruct (Nat.ltb_spec (4 * (k / 3)) (List.length d)); [lia|reflexivity].
Qed.

Lemma rgbData_slot img k :
  nth_error (rgbData_of img) k =
  if (4 * (k / 3) <? List.length (data img)) && (k <? width img * height img * 3)
  then Some (JS.fround (byte_at (data img) (4 * (k / 3) + k mod 3) / 255)%float)
  else nth_error (repeat zero32 (width img * height img * 3)) k.
Proof.
  unfold rgbData_of.
  change (rgb_loop (List.length (data img)) (data img) 0 0)
    with (rgb_loop (List.length (data img)) (data img) (4 * 0) (3 * 0)).
  rewrite rgb_loop_slot by lia. rewrite repeat_length. reflexivity.
Qed.

Lemma nth_repeat {A} (x : A) n k : k < n -> nth_error (repeat x n) k = Some x.
Proof.
  revert k; induction n as [|n IH]; intros [|k] Hk; cbn; try lia; auto.
  apply IH; lia.
Qed.

Lemma product_224 : product [224; 224; 3] = 224 * 224 * 3.
Proof. cbn [product]. lia. Qed.

Lemma preprocess_wh_ok jimp_read jimp_resize buf img :
  jimp_read buf = Ok img ->
  width (jimp_resize 224 224 img) * height (jimp_resize 224 224 img) = 224 * 224 ->
  preprocessImage jimp_read jimp_resize buf
    = Ok (expandDims0 {| shape := [224; 224; 3];
                         values := rgbData_of (jimp_resize 224 224 img) |}).
Proof.
  intros Hr Hwh. unfold preprocessImage. rewrite Hr. unfold tensor3d.
  rewrite rgbData_length, Hwh, product_224, Nat.eqb_refl. reflexivity.
Qed.

(** [preprocessImage] succeeds exactly when Jimp reads the buffer and the
    resized bitmap has 224 * 224 pixels, whatever its bytes: otherwise
    [tf.tensor3d] refuses the array. *)
Theorem preprocessImage_ok_iff jimp_read jimp_resize buf :
  (exists t, preprocessImage jimp_read jimp_resize buf = Ok t) <->
  (exists img, jimp_read buf = Ok img /\
     width (jimp_resize 224 224 img) * height (jimp_resize 224 224 img) = 224 * 224).
Proof.
  split.
  - intros [t Ht]. unfold preprocessImage in Ht.
    destruct (jimp_read buf) as [img|e]; [|discriminate].
    exists img. split; [reflexivity|].
    unfold tensor3d in Ht. rewrite rgbData_length, product_224 in Ht.
    destruct (Nat.eqb_spec (224 * 224 * 3)
                (width (jimp_resize 224 224 img) * height (jimp_resize 224 224 img) * 3))
      as [E|E]; [lia|].
    cbn [List.length Nat.eqb andb] in Ht. discriminate.
  - intros [img [Hr Hwh]]. eexists. exact (preprocess_wh_ok _ _ _ _ Hr Hwh).
Qed.

Lemma slot_values img k :
  width img * height img = 224 * 224 -> k < 224 * 224 * 3 ->
  nth_error (rgbData_of img) k =
    Some (if 4 * (k / 3) <? List.length (data img)
          then JS.fround (byte_at (data img) (4 * (k / 3) + k mod 3) / 255)%float
          else zero32).
Proof.
  intros Hwh Hk. rewrite rgbData_slot, Hwh. rewrite (proj2 (Nat.ltb_lt _ _) Hk).
  destruct (4 * (k / 3) <? List.length (data img)); cbn [andb]; [reflexivity|].
  apply nth_repeat. exact Hk.
Qed.

(** The slots of the tensor for a bitmap of 224 * 224 pixels whose data may
    hold any number of bytes: slot [3q + c] holds [data[4q + c] / 255] as
    binary32 when the pixel's first byte [4q] exists ([undefined], read as
    NaN, when [4q + c] itself is missing), and keeps the +0 of
    [new Float32Array] when the data ends before the pixel. *)
Theorem preprocessImage_slots jimp_read jimp_resize buf img :
  jimp_read buf = Ok img ->
  width (jimp_resize 224 224 img) * height (jimp_resize 224 224 img) = 224 * 224 ->
  exists t, preprocessImage jimp_read jimp_resize buf = Ok t /\
    shape t = [1; 224; 224; 3] /\ List.length (values t) = 224 * 224 * 3 /\
    forall k, k < 224 * 224 * 3 ->
      nth_error (values t) k =
        Some (if 4 * (k / 3) <? List.length (data (jimp_resize 224 224 img))
              then JS.fround (PrimFloat.div (byte_at (data (jimp_resize 224 224 img))
                                                (4 * (k / 3) + k mod 3)) 255%float)
              else zero32).
Proof.
  intros Hr Hwh. eexists. split; [exact (preprocess_wh_ok _ _ _ _ Hr Hwh)|].
  split; [reflexivity|]. cbn [expandDims0 values].
  split; [rewrite rgbData_length, Hwh; reflexivity|].
  intros k Hk. exact (slot_values _ k Hwh Hk).
Qed.

(** A channel byte missing from the bitmap's data: its slot is NaN when the
    pixel is the data's partial last pixel, +0 when the data ends before the
    pixel. *)
Theorem preprocessImage_short_data jimp_read jimp_resize buf img q c :
  jimp_read buf = Ok img ->
  width (jimp_resize 224 224 img) * height (jimp_resize 224 224 img) = 224 * 224 ->
  q < 224 * 224 -> c < 3 ->
  List.length (data (jimp_resize 224 224 img)) <= 4 * q + c ->
  exists t, preprocessImage jimp_read jimp_resize buf = Ok t /\
    nth_error (values t) (3 * q + c) =
      Some (if 4 * q <? List.length (data (jimp_resize 224 224 img))
            then S754_nan else zero32).
Proof.
  intros Hr Hwh Hq Hc Hd.
  eexists. split; [exact (preprocess_wh_ok _ _ _ _ Hr Hwh)|]. cbn [expandDims0 values].
  rewrite (slot_values _ (3 * q + c) Hwh) by lia.
  destruct (div3 q c Hc) as [E1 E2]. rewrite E1, E2.
  destruct (4 * q <? List.length (data (jimp_resize 224 224 img))); [|reflexivity].
  unfold byte_at. rewrite (proj2 (nth_error_None _ _) Hd). reflexivity.
Qed.

Lemma preprocessImage_slots_witness :
  exists t,
    preprocessImage (fun _ => Ok {| width := 640; height := 480; data := [] |})
      (fun _ _ _ => {| width := 224; height := 224;
                       data := [Byte.x00; Byte.xff; Byte.x80; Byte.x10; Byte.x01] |}) [] = Ok t /\
    shape t = [1; 224; 224; 3] /\ List.length (values t) = 224 * 224 * 3 /\
    forall k, k < 224 * 224 * 3 ->
      nth_error (values t) k =
        Some (if 4 * (k / 3) <? 5
              then JS.fround (PrimFloat.div
                     (byte_at [Byte.x00; Byte.xff; Byte.x80; Byte.x10; Byte.x01]
                        (4 * (k / 3) + k mod 3)) 255%float)
              else zero32).
Proof.
  exact (preprocessImage_slots (fun _ => Ok {| width := 640; height := 480; data := [] |})
           (fun _ _ _ => {| width := 224; height := 224;
                            data := [Byte.x00; Byte.xff; Byte.x80; Byte.x10; Byte.x01] |})
           [] _ eq_refl eq_refl).
Defined.

Lemma preprocessImage_short_data_witness :
  exists t,
    preprocessImage (fun _ => Ok {| width := 640; height := 480; data := [] |})
      (fun _ _ _ => {| width := 224; height := 224;
                       data := [Byte.x00; Byte.xff; Byte.x80; Byte.x10; Byte.x01] |}) [] = Ok t /\
    nth_error (values t) (3 * 1 + 1) = Some (if 4 * 1 <? 5 then S754_nan else zero32).
Proof.
  exact (preprocessImage_short_data (fun _ => Ok {| width := 640; height := 480; data := [] |})
           (fun _ _ _ => {| width := 224; height := 224;
                            data := [Byte.x00; Byte.xff; Byte.x80; Byte.x10; Byte.x01] |})
           [] _ 1 1 eq_refl eq_refl ltac:(lia) ltac:(lia) ltac:(cbn; lia)).
Defined.

End NormalizerExtra.

(** ** The data URL prefix *)

Module PrefixFacts.

Import Prefix Chars.
Local Open Scope string_scope.

Lemma prefix_app p s : String.prefix p (p ++ s) = true.
Proof.
  induction p as [|c p IH]; cbn; [destruct s; reflexivity|].
  destruct (ascii_dec c c) as [_|n]; [exact IH|contradiction].
Qed.

Lemma substring_all s : substring 0 (String.length s) s = s.
Proof. induction s as [|c s IH]; cbn; [reflexivity|]. rewrite IH. reflexivity. Qed.

Lemma substring_app p s :
  substring (String.length p) (String.length (p ++ s) - String.length p) (p ++ s) = s.
Proof.
  induction p as [|c p IH]; cbn.
  - rewrite Nat.sub_0_r. apply substring_all.
  - exact IH.
Qed.

Lemma prefix_split p s :
  String.prefix p s = true ->
  s = p ++ substring (String.length p) (String.length s - String.length p) s.
Proof.
  revert s; induction p as [|c p IH]; intros s H.
  - cbn. rewrite Nat.sub_0_r. symmetry. apply substring_all.
  - destruct s as [|c' s]; cbn in H; [discriminate|].
    destruct (ascii_dec c c') as [<-|n]; [|discriminate].
    cbn. f_equal. exact (IH s H).
Qed.

Lemma drop_lower_cons c s :
  drop_lower (String c s) =
  if lower c then let '(n, r) := drop_lower s in (S n, r) else (O, String c s).
Proof. reflexivity. Qed.

Lemma drop_lower_app t r :
  (forall c, In c (list_ascii_of_string t) -> lower c = true) ->
  (match r with String c _ => lower c = false | EmptyString => True end) ->
  drop_lower (t ++ r) = (String.length t, r).
Proof.
  intros Ht Hr. induction t as [|c t IH].
  - destruct r as [|c r]; [reflexivity|]. cbn [append]. rewrite drop_lower_cons, Hr. reflexivity.
  - assert (Hc : lower c = true) by (apply Ht; left; reflexivity).
    cbn [append]. rewrite drop_lower_cons, Hc, IH; [reflexivity|].
    intros c' Hc'. apply Ht. right. exact Hc'.
Qed.

Lemma drop_lower_spec s :
  exists t, s = t ++ snd (drop_lower s) /\ String.length t = fst (drop_lower s) /\
            (forall c, In c (list_ascii_of_string t) -> lower c = true).
Proof.
  induction s as [|c s IH].
  - exists "". repeat split. intros c [].
  - rewrite drop_lower_cons. destruct (lower c) eqn:Hc.
    + destruct IH as [t [E [L Hl]]]. destruct (drop_lower s) as [n r]. cbn in *.
      exists (String c t). split; [rewrite E at 1; reflexivity|]. split; [cbn; f_equal; exact L|].
      intros c' [<-|H]; [exact Hc|exact (Hl c' H)].
    + exists "". repeat split. intros c' [].
Qed.

Lemma strip_prefixed t r :
  t <> "" -> (forall c, In c (list_ascii_of_string t) -> lower c = true) ->
  strip ("data:image/" ++ t ++ ";base64," ++ r) = r.
Proof.
  intros Hne Hl. unfold strip. rewrite prefix_app.
  change 11%nat with (String.length "data:image/"). rewrite substring_app.
  rewrite (drop_lower_app t (";base64," ++ r) Hl eq_refl).
  destruct t as [|c t]; [contradiction|]. cbn [String.length].
  rewrite prefix_app. change 8%nat with (String.length ";base64,").
  apply substring_app.
Qed.

(** [image.replace(/^data:image\/[a-z]+;base64,/, '')] either leaves the
    string as it is, or removes exactly a leading [data:image/], a non-empty
    run of lower-case letters and [;base64,]; and it does remove every such
    prefix. *)
Theorem strip_cases s :
  (forall t r, t <> "" -> (forall c, In c (list_ascii_of_string t) -> lower c = true) ->
     strip ("data:image/" ++ t ++ ";base64," ++ r) = r) /\
  (strip s = s \/
   exists t r, t <> "" /\ (forall c, In c (list_ascii_of_string t) -> lower c = true) /\
     s = "data:image/" ++ t ++ ";base64," ++ r /\ strip s = r).
Proof.
  split; [exact strip_prefixed|].
  unfold strip. destruct (String.prefix "data:image/" s) eqn:Hp; [|left; reflexivity].
  pose proof (prefix_split _ _ Hp) as Es.
  change (String.length "data:image/") with 11%nat in Es.
  set (rest := substring 11 (String.length s - 11) s) in *.
  destruct (drop_lower_spec rest) as [t [Et [Lt Hl]]].
  destruct (drop_lower rest) as [[|n] r0] eqn:Ed; [left; reflexivity|].
  cbn [fst snd] in Et, Lt.
  destruct (String.prefix ";base64," r0) eqn:Hp2; [|left; reflexivity].
  right. pose proof (prefix_split _ _ Hp2) as Er0.
  change (String.length ";base64,") with 8%nat in Er0.
  exists t, (substring 8 (String.length r0 - 8) r0).
  split; [intros E; rewrite E in Lt; discriminate|].
  split; [exact Hl|]. split; [|reflexivity].
  rewrite Es at 1. f_equal. rewrite Et at 1. f_equal. exact Er0.
Qed.

Lemma strip_cases_witness :
  strip ("data:image/" ++ "png" ++ ";base64," ++ "QQ==") = "QQ==".
Proof.
  apply (proj1 (strip_cases "")).
  - discriminate.
  - intros c H. cbn in H. destruct H as [<-|[<-|[<-|[]]]]; reflexivity.
Defined.

End PrefixFacts.

(** ** The routes' answers *)

Module RouteExtra.

Import Pre Interp Server RouteFacts Info Chars PrefixFacts.
Local Open Scope string_scope.

Lemma respond_shape x :
  (exists m, fst (respond x) = resp_internal m) \/ (exists r, fst (respond x) = resp_success r).
Proof.
  destruct x as [[r|m] ev]; unfold respond; cbn [fst]; [right|left]; eexists; reflexivity.
Qed.

Lemma respond_not_400 x : status (fst (respond x)) <> 400%Z.
Proof. destruct (respond_shape x) as [[m E]|[r E]]; rewrite E; discriminate. Qed.


Lemma truthy_string s : s <> "" -> truthy (JStr s) = true.
Proof. intros H. cbn [truthy]. apply String.eqb_neq in H. rewrite H. reflexivity. Qed.

(** [POST /predict] with the model loaded answers 400 exactly when
    [req.body.image] is not a non-empty string, and then calls neither Jimp
    nor the model. *)
Theorem post_predict_400_iff jimp_read jimp_resize model_predict image :
  (status (fst (post_predict jimp_read jimp_resize model_predict true image)) = 400%Z <->
   forall s, image = JStr s -> s = "") /\
  (status (fst (post_predict jimp_read jimp_resize model_predict true image)) = 400%Z ->
   snd (post_predict jimp_read jimp_resize model_predict true image) = []).
Proof.
  unfold post_predict. cbn [negb]. destruct (truthy image) eqn:Ht; cbn [negb].
  - destruct image as [s| | | | | |]; cbn [decode_image];
      try (split; [split; [intros _ s' E; discriminate | intros _; reflexivity]
                  | intros _; reflexivity]).
    split.
    + split; [intros H; exfalso; exact (respond_not_400 _ H)|].
      intros H. rewrite (H s eq_refl) in Ht. discriminate.
    + intros H; exfalso; exact (respond_not_400 _ H).
  - split; [split; [intros _ s E | intros _; reflexivity] | intros _; reflexivity].
    subst image. cbn [truthy] in Ht. destruct (String.eqb_spec s ""); [assumption|discriminate].
Qed.

(** The 400 "Formato de imagen inválido" of [POST /predict] is the answer to
    exactly the truthy values of [image] that are not strings, whose
    [replace] is not a function. *)
Theorem post_predict_bad_base64_iff jimp_read jimp_resize model_predict image :
  fst (post_predict jimp_read jimp_resize model_predict true image) = resp_bad_base64 <->
  truthy image = true /\ (forall s, image <> JStr s).
Proof.
  unfold post_predict. cbn [negb]. destruct (truthy image) eqn:Ht; cbn [negb].
  - destruct image as [s| | | | | |]; cbn [decode_image];
      try (split; [intros _; split; [reflexivity | intros s' E; discriminate]
                  | intros _; reflexivity]).
    split.
    + intros H. exfalso. apply (respond_not_400
        (pipeline jimp_read jimp_resize model_predict true
           (B64.buffer_from_base64 (Prefix.strip s)))).
      rewrite H. reflexivity.
    + intros [_ H]. exfalso. exact (H s eq_refl).
  - split; [|intros [H _]; discriminate].
    cbn [fst]. unfold resp_no_image, resp_bad_base64, error_response.
    intros H. injection H as H. discriminate H.
Qed.

Lemma respond_labels x :
  status (fst (respond x)) = 200%Z ->
  exists d, In ("diagnosis", JStr d) (fields (fst (respond x))) /\ In d classNames.
Proof.
  destruct (respond_shape x) as [[m E]|[r E]]; rewrite E; [discriminate|].
  intros _. exists (diagnosis_name (diagnosis_of r)). split.
  - cbn. right. left. reflexivity.
  - destruct (diagnosis_of r); cbn; auto.
Qed.

(** Every answer of [POST /predict] and of [POST /predict/upload] is either
    the success body of a result, or an [{error, message}] body with status
    400, 500 or 503. *)
Theorem route_statuses jimp_read jimp_resize model_predict isModelLoaded image file :
  let shapes r :=
    (exists res, r = resp_success res) \/
    (exists code e m, In code [400; 500; 503]%Z /\ r = error_response code e m) in
  shapes (fst (post_predict jimp_read jimp_resize model_predict isModelLoaded image)) /\
  shapes (fst (post_predict_upload jimp_read jimp_resize model_predict isModelLoaded file)).
Proof.
  intros shapes.
  assert (Hr : forall x, shapes (fst (respond x))).
  { intros x. destruct (respond_shape x) as [[m E]|[r E]]; rewrite E.
    - right. exists 500%Z, "Error interno del servidor", m. split; [cbn; auto | reflexivity].
    - left. exists r. reflexivity. }
  assert (Hu : shapes resp_unavailable).
  { right. do 3 eexists. split; [cbn; auto | reflexivity]. }
  assert (H4 : forall e m, shapes (error_response 400 e m)).
  { intros e m. right. exists 400%Z, e, m. split; [cbn; auto | reflexivity]. }
  split.
  - unfold post_predict. destruct isModelLoaded; [|exact Hu]. cbn [negb].
    destruct (truthy image); [|apply H4]. cbn [negb].
    destruct (decode_image image); [apply Hr | apply H4].
  - unfold post_predict_upload. destruct isModelLoaded; [|exact Hu]. cbn [negb].
    destruct file; [apply Hr | apply H4].
Qed.

(** A 200 answer of either prediction route names its diagnosis by one of
    the [classNames] that [GET /model/status] lists. *)
Theorem predict_labels jimp_read jimp_resize model_predict isModelLoaded image file :
  (status (fst (post_predict jimp_read jimp_resize model_predict isModelLoaded image)) = 200%Z ->
   exists d, In ("diagnosis", JStr d)
               (fields (fst (post_predict jimp_read jimp_resize model_predict isModelLoaded image))) /\
             In d (classNames_of (get_model_status isModelLoaded))) /\
  (status (fst (post_predict_upload jimp_read jimp_resize model_predict isModelLoaded file)) = 200%Z ->
   exists d, In ("diagnosis", JStr d)
               (fields (fst (post_predict_upload jimp_read jimp_resize model_predict isModelLoaded file))) /\
             In d (classNames_of (get_model_status isModelLoaded))).
Proof.
  cbn [classNames_of get_model_status]. split.
  - unfold post_predict. destruct isModelLoaded; [|discriminate]. cbn [negb].
    destruct (truthy image); [|discriminate]. cbn [negb].
    destruct (decode_image image); [apply respond_labels | discriminate].
  - unfold post_predict_upload. destruct isModelLoaded; [|discriminate]. cbn [negb].
    destruct file; [apply respond_labels | discriminate].
Qed.


(** A data URL prefix [data:image/<t>;base64,] with [t] of lower-case
    letters is transparent to [POST /predict]: the request is answered, and
    makes its calls, as for the bare base64 text, provided that text is not
    empty and carries no such prefix itself (only one prefix is removed). *)
Theorem data_url_prefix_transparent jimp_read jimp_resize model_predict isModelLoaded t s :
  t <> "" -> (forall c, In c (list_ascii_of_string t) -> lower c = true) -> s <> "" ->
  Prefix.strip s = s ->
  post_predict jimp_read jimp_resize model_predict isModelLoaded
    (JStr ("data:image/" ++ t ++ ";base64," ++ s)) =
  post_predict jimp_read jimp_resize model_predict isModelLoaded (JStr s).
Proof.
  intros Ht Hl Hs Hp. destruct isModelLoaded; [|reflexivity].
  assert (Hne : "data:image/" ++ t ++ ";base64," ++ s <> "") by discriminate.
  rewrite (post_predict_string _ _ _ _ Hne), (post_predict_string _ _ _ _ Hs).
  rewrite (strip_prefixed t s Ht Hl), Hp. reflexivity.
Qed.

Lemma predict_labels_witness :
  exists d, In ("diagnosis", JStr d)
    (fields (fst (post_predict
       (fun _ => Ok {| width := 224; height := 224; data := [] |}) (fun _ _ b => b)
       (fun _ => Ok 0.75%float) true (JStr "AAAA")))) /\
  In d (classNames_of (get_model_status true)).
Proof.
  apply (proj1 (predict_labels
    (fun _ => Ok {| width := 224; height := 224; data := [] |}) (fun _ _ b => b)
    (fun _ => Ok 0.75%float) true (JStr "AAAA") None)).
  vm_compute. reflexivity.
Defined.

Lemma data_url_prefix_transparent_witness :
  post_predict (fun _ => Ok {| width := 224; height := 224; data := [] |}) (fun _ _ b => b)
    (fun _ => Ok 0.75%float) true (JStr ("data:image/" ++ "png" ++ ";base64," ++ "AAAA")) =
  post_predict (fun _ => Ok {| width := 224; height := 224; data := [] |}) (fun _ _ b => b)
    (fun _ => Ok 0.75%float) true (JStr "AAAA").
Proof.
  apply (data_url_prefix_transparent
    (fun _ => Ok {| width := 224; height := 224; data := [] |}) (fun _ _ b => b)
    (fun _ => Ok 0.75%float) true "png" "AAAA").
  - discriminate.
  - intros c H. cbn in H. destruct H as [<-|[<-|[<-|[]]]]; reflexivity.
  - discriminate.
  - vm_compute. reflexivity.
Defined.




End RouteExtra.

(** ** The tensors, the shutdown and the decoder *)

Module EffectExtra.

Import Pre Interp Tensors.

(** [makePrediction] succeeds exactly when it has predicted, read the data
    and disposed of both the input and the output tensor, in that order. *)
Theorem makePrediction_ok_disposes (P : Type) (predict : tensor -> res P)
    (data_of : P -> res (list float)) isModelLoaded imageTensor :
  (exists r, fst (Tensors.makePrediction P predict data_of isModelLoaded imageTensor) = Ok r) <->
  (exists p, snd (Tensors.makePrediction P predict data_of isModelLoaded imageTensor) =
             [Predict imageTensor; Data p; DisposeInput imageTensor; DisposeOutput p]).
Proof.
  unfold Tensors.makePrediction.
  destruct isModelLoaded; cbn [negb].
  2: { split; intros [x E]; discriminate. }
  destruct (predict imageTensor) as [p|e].
  2: { split; intros [x E]; discriminate. }
  destruct (data_of p) as [d|e].
  - split; intros _; eexists; reflexivity.
  - split; intros [x E]; discriminate.
Qed.

(** When [makePrediction] fails, no tensor is disposed: the input tensor of
    a failed prediction, and its output once created, are left allocated. *)
Theorem makePrediction_err_leaks (P : Type) (predict : tensor -> res P)
    (data_of : P -> res (list float)) isModelLoaded imageTensor e t p :
  fst (Tensors.makePrediction P predict data_of isModelLoaded imageTensor) = Err e ->
  ~ In (DisposeInput t) (snd (Tensors.makePrediction P predict data_of isModelLoaded imageTensor)) /\
  ~ In (DisposeOutput p) (snd (Tensors.makePrediction P predict data_of isModelLoaded imageTensor)).
Proof.
  unfold Tensors.makePrediction.
  destruct isModelLoaded; cbn [negb].
  2: { intros _. cbn. tauto. }
  destruct (predict imageTensor) as [q|e'].
  2: { intros _. cbn. split; intros [H|[]]; discriminate. }
  destruct (data_of q) as [d|e'].
  - discriminate.
  - intros _. cbn. split; intros [H|[H|[]]]; discriminate.
Qed.

Lemma makePrediction_err_leaks_witness :
  ~ In (DisposeInput {| shape := []; values := [] |})
      (snd (Tensors.makePrediction unit (fun _ => Ok tt)
              (fun _ => Err "rejected") true {| shape := []; values := [] |})) /\
  ~ In (DisposeOutput tt)
      (snd (Tensors.makePrediction unit (fun _ => Ok tt)
              (fun _ => Err "rejected") true {| shape := []; values := [] |})).
Proof.
  apply (makePrediction_err_leaks unit (fun _ => Ok tt) (fun _ => Err "rejected") true
           {| shape := []; values := [] |} Server.msg_prediccion).
  reflexivity.
Defined.

(** An empty output ([predictionData[0]] undefined) is not an error: it is
    reported as a success, diagnosis "Benigno", with a NaN confidence and
    [rawPrediction] left [undefined]. *)
Theorem makePrediction_empty_output (P : Type) (predict : tensor -> res P)
    (data_of : P -> res (list float)) imageTensor p :
  predict imageTensor = Ok p -> data_of p = Ok [] ->
  exists r, fst (Tensors.makePrediction P predict data_of true imageTensor) = Ok r /\
            diagnosis_js r = Benigno /\
            PrimFloat.is_nan (confidence_js r) = true /\
            rawPrediction_js r = Server.JUndefined.
Proof.
  intros Hp Hd. unfold Tensors.makePrediction. cbn [negb]. rewrite Hp, Hd.
  eexists. split; [reflexivity|]. vm_compute. repeat split.
Qed.

Lemma makePrediction_empty_output_witness :
  exists r, fst (Tensors.makePrediction unit (fun _ => Ok tt) (fun _ => Ok []) true
                   {| shape := []; values := [] |}) = Ok r /\
            diagnosis_js r = Benigno /\
            PrimFloat.is_nan (confidence_js r) = true /\
            rawPrediction_js r = Server.JUndefined.
Proof.
  apply (makePrediction_empty_output unit (fun _ => Ok tt) (fun _ => Ok []) _ tt);
    reflexivity.
Defined.

Import Shutdown.

(** On SIGINT or SIGTERM the process always exits with code 0 and with no
    other code, and it disposes of a model exactly when [tf.loadGraphModel]
    resolved with it, even when the logging that followed threw and left
    [isModelLoaded] false. The flag is the one of [Lifecycle.loadModel]. *)
Theorem on_signal_after_load (M : Type) (load : res M) (logging : res unit) m :
  snd (Shutdown.loadModel M load logging) =
    Lifecycle.loadModel (match load with Ok _ => Ok tt | Err e => Err e end) logging /\
  (exists pre, on_signal M (fst (Shutdown.loadModel M load logging)) = pre ++ [Exit 0] /\
               forall c, In (Exit c) pre -> False) /\
  (In (Dispose m) (on_signal M (fst (Shutdown.loadModel M load logging))) <-> load = Ok m).
Proof.
  destruct load as [m'|e]; cbn.
  - split; [reflexivity|]. split.
    + exists [Dispose m']. split; [reflexivity|]. intros c [H|[]]; discriminate.
    + split.
      * intros [H|[H|[]]]; [injection H as ->; reflexivity | discriminate].
      * intros H. injection H as ->. left. reflexivity.
  - split; [reflexivity|]. split.
    + exists []. split; [reflexivity | intros c []].
    + split; [intros [H|[]]; discriminate | discriminate].
Qed.

End EffectExtra.
